(** * Chronicles of Aethermoor: engine core

    A shallow embedding of the three engine managers of [game/engine]:
    the time manager ([time_manager.py]), the event manager
    ([event_manager.py]) and the state manager ([state_manager.py]),
    with the properties of their specification that were checked
    against the code.

    Python integers are [Z].  Python objects that are shared and mutated
    in place (game times, game states) live in a store indexed by object
    identities; a reference is a [nat].  Logging is not modelled. *)

From Stdlib Require Import ZArith QArith Qround Lia Lqa List Bool.
From stdpp Require Import gmap strings list.

(** ** Game time, weather and scheduled callbacks ([time_manager.py]) *)

Module Clock.

Local Open Scope Z_scope.

Inductive TimeOfDay :=
  DAWN | MORNING | MIDDAY | AFTERNOON | DUSK | EVENING | NIGHT | MIDNIGHT.

Inductive Season := SPRING | SUMMER | AUTUMN | WINTER.

Inductive WeatherType :=
  CLEAR | CLOUDY | RAIN | STORM | FOG | SNOW | CRYSTAL_STORM.

#[global] Instance TimeOfDay_eq_dec : EqDecision TimeOfDay.
Proof. solve_decision. Defined.
#[global] Instance Season_eq_dec : EqDecision Season.
Proof. solve_decision. Defined.
#[global] Instance WeatherType_eq_dec : EqDecision WeatherType.
Proof. solve_decision. Defined.

(** [GameTime]: a dataclass of five integer fields.  The dataclass does
    not validate them; the ranges in the comments of the source are the
    ones of [valid] below. *)
Record GameTime := mkGameTime {
  year : Z;
  month : Z;
  day : Z;
  hour : Z;
  minute : Z
}.

#[global] Instance GameTime_eq_dec : EqDecision GameTime.
Proof. solve_decision. Defined.

(** [GameTime()] with the dataclass defaults. *)
Definition GameTime_default : GameTime := mkGameTime 1 1 1 6 0.

Definition total_minutes (t : GameTime) : Z :=
  (year t - 1) * 365 * 24 * 60 +
  (month t - 1) * 30 * 24 * 60 +
  (day t - 1) * 24 * 60 +
  hour t * 60 +
  minute t.

Definition get_time_of_day (t : GameTime) : TimeOfDay :=
  let h := hour t in
  if (5 <=? h) && (h <? 7) then DAWN
  else if (7 <=? h) && (h <? 10) then MORNING
  else if (10 <=? h) && (h <? 14) then MIDDAY
  else if (14 <=? h) && (h <? 17) then AFTERNOON
  else if (17 <=? h) && (h <? 19) then DUSK
  else if (19 <=? h) && (h <? 22) then EVENING
  else if ((22 <=? h) && (h <? 24)) || ((0 <=? h) && (h <? 2)) then NIGHT
  else MIDNIGHT.

Definition get_season (t : GameTime) : Season :=
  let m := month t in
  if (3 <=? m) && (m <=? 5) then SPRING
  else if (6 <=? m) && (m <=? 8) then SUMMER
  else if (9 <=? m) && (m <=? 11) then AUTUMN
  else WINTER.

(** [GameTime.copy]: the field values of a new object. *)
Definition copy (t : GameTime) : GameTime :=
  mkGameTime (year t) (month t) (day t) (hour t) (minute t).

(** The documented ranges of the fields. *)
Definition valid (t : GameTime) : Prop :=
  1 <= year t /\ 1 <= month t <= 12 /\ 1 <= day t <= 30 /\
  0 <= hour t <= 23 /\ 0 <= minute t <= 59.

(** One pass through the body of the overflow loop of [_advance_time]
    (and of [schedule_relative_event], which repeats it). *)
Definition carry_step (t : GameTime) : GameTime :=
  let mi := minute t - 60 in
  let h := hour t + 1 in
  if 24 <=? h then
    let d := day t + 1 in
    if 30 <? d then
      let mo := month t + 1 in
      if 12 <? mo then mkGameTime (year t + 1) 1 1 0 mi
      else mkGameTime (year t) mo 1 0 mi
    else mkGameTime (year t) (month t) d 0 mi
  else mkGameTime (year t) (month t) (day t) h mi.

(** [while self.current_time.minute >= 60: ...], at most [n] passes. *)
Fixpoint carry_loop (n : nat) (t : GameTime) : GameTime :=
  match n with
  | O => t
  | S k => if 60 <=? minute t then carry_loop k (carry_step t) else t
  end.

(** The loop takes [minute / 60] passes: each pass lowers [minute] by 60
    (see [carry_loop_exits] and [carry_loop_stable]). *)
Definition carry (t : GameTime) : GameTime :=
  carry_loop (Z.to_nat (minute t / 60)) t.

Definition add_minutes (minutes : Z) (t : GameTime) : GameTime :=
  mkGameTime (year t) (month t) (day t) (hour t) (minute t + minutes).

(** The calendar part of [_advance_time]: the new field values of
    [self.current_time]. *)
Definition advance_clock (minutes : Z) (t : GameTime) : GameTime :=
  carry (add_minutes minutes t).

(** *** Weather *)

(** The float fields of the source are modelled as exact rationals. *)
Record WeatherCondition := mkWeather {
  weather_type : WeatherType;
  intensity : Q;
  visibility : Q;
  temperature : Q;
  wind_speed : Q;
  duration_remaining : Z
}.

(** [WeatherCondition()] with the dataclass defaults. *)
Definition WeatherCondition_default : WeatherCondition :=
  mkWeather CLEAR 0 1 20 0 0.

(** The module-level generator of Python's [random]: [samples n] is the
    [n]-th value it hands out, a rational of [[0, 1)], and [drawn]
    counts the values handed out so far.  Every draw of the source
    ([choice], [uniform], [randint]) takes one sample and scales it. *)
Record Random := mkRandom {
  samples : nat -> Q;
  drawn : nat
}.

Definition random (r : Random) : Q * Random :=
  (samples r (drawn r), mkRandom (samples r) (S (drawn r))).

Definition uniform (a b : Q) (r : Random) : Q * Random :=
  let (u, r') := random r in ((a + (b - a) * u)%Q, r').

Definition randbelow (n : Z) (r : Random) : Z * Random :=
  let (u, r') := random r in (Qfloor (u * inject_Z n), r').

Definition randint (a b : Z) (r : Random) : Z * Random :=
  let (k, r') := randbelow (b - a + 1) r in (a + k, r').

Definition choice (l : list WeatherType) (r : Random) : WeatherType * Random :=
  let (k, r') := randbelow (Z.of_nat (length l)) r in
  (nth (Z.to_nat k) l CLEAR, r').

(** [self.weather_patterns], as [__init__] fills it. *)
Definition weather_patterns (s : Season) : list WeatherType :=
  match s with
  | SPRING => [CLEAR; RAIN; CLOUDY]
  | SUMMER => [CLEAR; STORM; CLOUDY]
  | AUTUMN => [CLOUDY; RAIN; FOG]
  | WINTER => [SNOW; CLOUDY; CLEAR]
  end.

(** *** Scheduled callbacks *)

(** [next_execution] is an [int] until the callback is exhausted, when
    it becomes [float('inf')]. *)
Inductive ExecTime := At (n : Z) | Never.

(** A [TemporalEvent] object.  [ev_id] is the identity of the object
    (the class defines no [__eq__], so [list.remove] and [in] compare
    identities).  The callback is an action outside the model; what the
    manager sees of it is whether the call raises. *)
Record TemporalEvent := mkTemporalEvent {
  ev_id : nat;
  event_time : GameTime;
  callback_raises : bool;
  name : string;
  repeating : bool;
  repeat_interval : Z;
  next_execution : ExecTime
}.

Definition set_next_execution (x : ExecTime) (e : TemporalEvent) : TemporalEvent :=
  mkTemporalEvent (ev_id e) (event_time e) (callback_raises e) (name e)
    (repeating e) (repeat_interval e) x.

(** [TemporalEvent.__init__]. *)
Definition TemporalEvent_init (id : nat) (event_time : GameTime) (raises : bool)
    (name : string) (repeating : bool) (repeat_interval : Z) : TemporalEvent :=
  mkTemporalEvent id event_time raises name repeating repeat_interval
    (At (total_minutes event_time)).

Definition is_never (x : ExecTime) : bool :=
  match x with Never => true | At _ => false end.

Definition should_execute (e : TemporalEvent) (current_time : GameTime) : bool :=
  match next_execution e with
  | At n => n <=? total_minutes current_time
  | Never => false
  end.

(** [TemporalEvent.execute]: the assignment to [next_execution] sits
    inside the [try], after the call of the callback. *)
Definition execute (e : TemporalEvent) (current_time : GameTime) : TemporalEvent :=
  if callback_raises e then e
  else if repeating e && (0 <? repeat_interval e)
       then set_next_execution (At (total_minutes current_time + repeat_interval e)) e
       else set_next_execution Never e.

(** [list.remove(event)]: drops the first entry that is the object. *)
Fixpoint remove_event (id : nat) (l : list TemporalEvent) : list TemporalEvent :=
  match l with
  | [] => []
  | e :: rest => if Nat.eqb (ev_id e) id then rest else e :: remove_event id rest
  end.

(** *** The time manager *)

(** [current_time] is a reference to a [GameTime] object of the store.
    [allocated_events] counts the [TemporalEvent] objects created so
    far and gives each its identity. *)
Record TimeManager := mkTimeManager {
  time_scale : Q;
  paused : bool;
  current_time : nat;
  last_time_of_day : TimeOfDay;
  last_season : Season;
  current_weather : WeatherCondition;
  weather_change_probability : Q;
  temporal_events : list TemporalEvent;
  completed_events : list TemporalEvent;
  allocated_events : nat
}.

Definition set_weather (w : WeatherCondition) (tm : TimeManager) : TimeManager :=
  mkTimeManager (time_scale tm) (paused tm) (current_time tm)
    (last_time_of_day tm) (last_season tm) w (weather_change_probability tm)
    (temporal_events tm) (completed_events tm) (allocated_events tm).

Definition set_events (pending completed : list TemporalEvent) (n : nat)
    (tm : TimeManager) : TimeManager :=
  mkTimeManager (time_scale tm) (paused tm) (current_time tm)
    (last_time_of_day tm) (last_season tm) (current_weather tm)
    (weather_change_probability tm) pending completed n.

Definition set_last (tod : TimeOfDay) (s : Season) (tm : TimeManager) : TimeManager :=
  mkTimeManager (time_scale tm) (paused tm) (current_time tm) tod s
    (current_weather tm) (weather_change_probability tm)
    (temporal_events tm) (completed_events tm) (allocated_events tm).

Definition set_current_time (l : nat) (tm : TimeManager) : TimeManager :=
  mkTimeManager (time_scale tm) (paused tm) l
    (last_time_of_day tm) (last_season tm) (current_weather tm)
    (weather_change_probability tm) (temporal_events tm) (completed_events tm)
    (allocated_events tm).

(** [_change_weather], with [now] the value of [self.current_time]. *)
Definition _change_weather (now : GameTime) (w : WeatherCondition) (r : Random)
    : WeatherCondition * Random :=
  let old_weather := weather_type w in
  let possible_weather := weather_patterns (get_season now) in
  let possible_weather :=
    if (1 <? length possible_weather)%nat
    then List.filter (fun x => negb (bool_decide (x = old_weather))) possible_weather
    else possible_weather in
  let (new_weather, r) := choice possible_weather r in
  let (i, r) := uniform (3 # 10) 1 r in
  let (d, r) := randint 30 240 r in
  match new_weather with
  | CLEAR =>
      let (ws, r) := uniform 0 10 r in
      (mkWeather new_weather i 1 (temperature w) ws d, r)
  | RAIN =>
      let (v, r) := uniform (6 # 10) (9 # 10) r in
      let (ws, r) := uniform 10 30 r in
      (mkWeather new_weather i v (temperature w) ws d, r)
  | STORM =>
      let (v, r) := uniform (3 # 10) (6 # 10) r in
      let (ws, r) := uniform 40 80 r in
      (mkWeather new_weather i v (temperature w) ws d, r)
  | FOG =>
      let (v, r) := uniform (2 # 10) (5 # 10) r in
      let (ws, r) := uniform 0 5 r in
      (mkWeather new_weather i v (temperature w) ws d, r)
  | CRYSTAL_STORM =>
      let (v, r) := uniform (4 # 10) (7 # 10) r in
      let (ws, r) := uniform 20 60 r in
      let (i', r) := uniform (7 # 10) 1 r in
      (mkWeather new_weather i' v (temperature w) ws d, r)
  | _ => (mkWeather new_weather i (visibility w) (temperature w) (wind_speed w) d, r)
  end.

(** The first statement of [_update_weather]. *)
Definition reduce_duration (minutes_passed : Z) (w : WeatherCondition) : WeatherCondition :=
  if 0 <? duration_remaining w
  then mkWeather (weather_type w) (intensity w) (visibility w) (temperature w)
         (wind_speed w) (duration_remaining w - minutes_passed)
  else w.

(** The condition of the [if] of [_update_weather]:
    [duration_remaining <= 0 or change_chance > 0.01]. *)
Definition weather_change_due (probability : Q) (minutes_passed : Z)
    (w : WeatherCondition) : bool :=
  let change_chance := (probability * inject_Z minutes_passed)%Q in
  (duration_remaining w <=? 0) || negb (Qle_bool change_chance (1 # 100)).

Definition _update_weather (now : GameTime) (minutes_passed : Z)
    (tm : TimeManager) (r : Random) : TimeManager * Random :=
  let w := reduce_duration minutes_passed (current_weather tm) in
  if weather_change_due (weather_change_probability tm) minutes_passed w
  then let (w', r') := _change_weather now w r in (set_weather w' tm, r')
  else (set_weather w tm, r).

(** The first loop of [_process_temporal_events]: the events after the
    loop, and [events_to_remove]. *)
Fixpoint fire_due (now : GameTime) (evs : list TemporalEvent)
    : list TemporalEvent * list TemporalEvent :=
  match evs with
  | [] => ([], [])
  | e :: rest =>
      let (rest', to_remove) := fire_due now rest in
      if should_execute e now then
        let e' := execute e now in
        if negb (repeating e') || is_never (next_execution e')
        then (e' :: rest', e' :: to_remove)
        else (e' :: rest', to_remove)
      else (e :: rest', to_remove)
  end.

(** The second loop: [self.temporal_events.remove(event)] for each. *)
Definition remove_events (to_remove pending : list TemporalEvent) : list TemporalEvent :=
  fold_left (fun l e => remove_event (ev_id e) l) to_remove pending.

Definition _process_temporal_events (now : GameTime) (tm : TimeManager) : TimeManager :=
  let (evs, to_remove) := fire_due now (temporal_events tm) in
  set_events (remove_events to_remove evs) (completed_events tm ++ to_remove)
    (allocated_events tm) tm.

(** [schedule_event]: a new object, appended to the pending list. *)
Definition schedule_event (event_time : GameTime) (raises : bool) (name : string)
    (repeating : bool) (repeat_interval : Z) (tm : TimeManager)
    : TemporalEvent * TimeManager :=
  let event := TemporalEvent_init (allocated_events tm) event_time raises name
                 repeating repeat_interval in
  (event, set_events (temporal_events tm ++ [event]) (completed_events tm)
            (S (allocated_events tm)) tm).

(** *** The manager and its objects *)

(** The [GameTime] objects that exist, the manager and the generator. *)
Record World := mkWorld {
  heap : gmap nat GameTime;
  manager : TimeManager;
  rng : Random
}.

(** A new object. *)
Definition alloc (t : GameTime) (h : gmap nat GameTime) : nat * gmap nat GameTime :=
  let l := fresh (dom h) in (l, <[l := t]> h).

(** [TimeManager.__init__]. *)
Definition TimeManager_init (scale : Q) (r : Random) : World :=
  let (l, h) := alloc GameTime_default ∅ in
  mkWorld h
    (mkTimeManager scale false l (get_time_of_day GameTime_default)
       (get_season GameTime_default) WeatherCondition_default (1 # 1000) [] [] 0)
    r.

(** [_advance_time]: the clock object is changed in place.  The
    notifications it sends to the event manager are left out.  [None]
    stands for a dangling [current_time], which Python cannot have. *)
Definition _advance_time (minutes : Z) (w : World) : option World :=
  let tm := manager w in
  match heap w !! current_time tm with
  | None => None
  | Some t =>
      let now := advance_clock minutes t in
      let h := <[current_time tm := now]> (heap w) in
      let tm := set_last (get_time_of_day now) (get_season now) tm in
      let (tm, r) := _update_weather now minutes tm (rng w) in
      let tm := _process_temporal_events now tm in
      Some (mkWorld h tm r)
  end.

(** [set_time]: [self.current_time = game_time.copy()]. *)
Definition set_time (game_time : nat) (w : World) : option World :=
  match heap w !! game_time with
  | None => None
  | Some t =>
      let (l, h) := alloc (copy t) (heap w) in
      Some (mkWorld h (set_current_time l (manager w)) (rng w))
  end.


(** What a caller can do to an object it holds: assign a field. *)
Inductive Field := F_year | F_month | F_day | F_hour | F_minute.

Definition assign (f : Field) (v : Z) (t : GameTime) : GameTime :=
  match f with
  | F_year => mkGameTime v (month t) (day t) (hour t) (minute t)
  | F_month => mkGameTime (year t) v (day t) (hour t) (minute t)
  | F_day => mkGameTime (year t) (month t) v (hour t) (minute t)
  | F_hour => mkGameTime (year t) (month t) (day t) v (minute t)
  | F_minute => mkGameTime (year t) (month t) (day t) (hour t) v
  end.

(** [obj.f = v] on the object [l]. *)
Definition setattr (l : nat) (f : Field) (v : Z) (w : World) : World :=
  mkWorld (alter (assign f v) l (heap w)) (manager w) (rng w).

(** A caller's sequence of assignments to the object [l]. *)
Definition setattrs (l : nat) (assignments : list (Field * Z)) (w : World) : World :=
  fold_left (fun w fv => setattr l (fst fv) (snd fv) w) assignments w.

(** The field values of the manager's clock. *)
Definition clock_value (w : World) : option GameTime :=
  heap w !! current_time (manager w).

(** *** The rest of the time manager *)

Definition is_daytime (t : GameTime) : bool :=
  bool_decide (get_time_of_day t ∈ [DAWN; MORNING; MIDDAY; AFTERNOON]).

Definition is_nighttime (t : GameTime) : bool := negb (is_daytime t).

(** [schedule_relative_event], with [now] the value of
    [self.current_time]: the target is a copy of the clock moved by
    the overflow loop of [_advance_time], written out again there. *)
Definition schedule_relative_event (now : GameTime) (minutes_from_now : Z)
    (raises : bool) (name : string) (repeating : bool) (repeat_interval : Z)
    (tm : TimeManager) : TemporalEvent * TimeManager :=
  let target_time := carry (add_minutes minutes_from_now (copy now)) in
  schedule_event target_time raises name repeating repeat_interval tm.

(** [event in self.temporal_events]. *)
Definition is_pending (event : TemporalEvent) (tm : TimeManager) : bool :=
  existsb (fun e => Nat.eqb (ev_id e) (ev_id event)) (temporal_events tm).

Definition cancel_event (event : TemporalEvent) (tm : TimeManager)
    : TimeManager * bool :=
  if is_pending event tm
  then (set_events (remove_event (ev_id event) (temporal_events tm))
          (completed_events tm) (allocated_events tm) tm, true)
  else (tm, false).

(** [force_weather_change]. *)
Definition force_weather_change (weather_type : WeatherType) (duration : Z)
    (intensity : Q) (tm : TimeManager) : TimeManager :=
  let w := current_weather tm in
  set_weather (mkWeather weather_type intensity (visibility w) (temperature w)
                 (wind_speed w) duration) tm.

(** The samples of the generator are in the unit interval. *)
Definition unit_samples (r : Random) : Prop :=
  forall n, (0 <= samples r n)%Q /\ (samples r n < 1)%Q.

(** What one scheduled callback becomes in a tick: it is executed when
    it is due. *)
Definition tick_event (now : GameTime) (e : TemporalEvent) : TemporalEvent :=
  if should_execute e now then execute e now else e.

(** The callbacks a tick takes off the pending list: due, and after
    the call not repeating or exhausted. *)
Definition leaves (now : GameTime) (e : TemporalEvent) : bool :=
  should_execute e now &&
  (negb (repeating (execute e now)) || is_never (next_execution (execute e now))).

(** The calendar position of a game time, in minutes, with the 360-day
    year of the overflow loop. *)
Definition calendar_minutes (t : GameTime) : Z :=
  ((((year t * 12 + (month t - 1)) * 30 + (day t - 1)) * 24 + hour t) * 60
   + minute t).

(** All fields but the minute are within their ranges, and the minute
    is not negative: the clock between the addition of a batch and the
    end of the overflow loop. *)
Definition carrying (t : GameTime) : Prop :=
  1 <= year t /\ 1 <= month t <= 12 /\ 1 <= day t <= 30 /\
  0 <= hour t <= 23 /\ 0 <= minute t.

(** The identities given out so far are below the counter. *)
Definition well_numbered (tm : TimeManager) : Prop :=
  NoDup (map ev_id (temporal_events tm)) /\
  Forall (fun e => (ev_id e < allocated_events tm)%nat) (temporal_events tm).

(** Python's [max] and [min] of two numbers: the first argument,
    unless the second is strictly beyond it. *)
Definition py_max (a b : Q) : Q := if Qle_bool b a then a else b.
Definition py_min (a b : Q) : Q := if Qle_bool a b then a else b.

Definition set_paused (b : bool) (tm : TimeManager) : TimeManager :=
  mkTimeManager (time_scale tm) b (current_time tm)
    (last_time_of_day tm) (last_season tm) (current_weather tm)
    (weather_change_probability tm) (temporal_events tm) (completed_events tm)
    (allocated_events tm).

Definition pause (tm : TimeManager) : TimeManager := set_paused true tm.
Definition resume (tm : TimeManager) : TimeManager := set_paused false tm.

(** [set_time_scale]: [max(0.1, min(3600.0, scale))]. *)
Definition set_time_scale (scale : Q) (tm : TimeManager) : TimeManager :=
  mkTimeManager (py_max (1 # 10) (py_min 3600 scale)) (paused tm) (current_time tm)
    (last_time_of_day tm) (last_season tm) (current_weather tm)
    (weather_change_probability tm) (temporal_events tm) (completed_events tm)
    (allocated_events tm).

(** The two tables of [get_light_level]. *)
Definition base_light (tod : TimeOfDay) : Q :=
  match tod with
  | MIDNIGHT => 1 # 10 | DAWN => 4 # 10 | MORNING => 8 # 10 | MIDDAY => 1
  | AFTERNOON => 9 # 10 | DUSK => 5 # 10 | EVENING => 3 # 10 | NIGHT => 2 # 10
  end.

Definition weather_modifier (w : WeatherType) : Q :=
  match w with
  | CLEAR => 1 | CLOUDY => 8 # 10 | RAIN => 7 # 10 | STORM => 4 # 10
  | FOG => 5 # 10 | SNOW => 6 # 10 | CRYSTAL_STORM => 6 # 10
  end.

(** [get_light_level], with [now] the value of [self.current_time]. *)
Definition get_light_level (now : GameTime) (tm : TimeManager) : Q :=
  py_max (5 # 100)
    (base_light (get_time_of_day now)
     * weather_modifier (weather_type (current_weather tm))).

(** A manager with one repeating callback, due at the default time,
    every 30 minutes. *)
Definition hourly_bell : TimeManager :=
  snd (schedule_event GameTime_default false "bell" true 30
         (mkTimeManager 60 false 0 DAWN WINTER (mkWeather CLEAR 0 1 20 0 100)
            (1 # 1000) [] [] 0)).

(** The identities of the events of a list. *)
Definition ids (l : list TemporalEvent) : list nat := map ev_id l.

(** *** Managers for the examples *)

(** A manager as [__init__] leaves it, with weather that lasts 100 more
    minutes. *)
Definition settled_manager : TimeManager :=
  mkTimeManager 60 false 0 DAWN WINTER (mkWeather CLEAR 0 1 20 0 100)
    (1 # 1000) [] [] 0.

(** A generator that always hands out one half. *)
Definition steady_random : Random := mkRandom (fun _ => 1 # 2)%Q 0.

(** [n] callbacks scheduled for the default time, none repeating. *)
Fixpoint schedule_one_shots (n : nat) (tm : TimeManager) : TimeManager :=
  match n with
  | O => tm
  | S k => snd (schedule_event GameTime_default false "Unnamed Event" false 0
                  (schedule_one_shots k tm))
  end.

(** *** The calendar *)

Section Calendar.

Lemma carry_step_minute t : minute (carry_step t) = minute t - 60.
Proof.
  unfold carry_step.
  repeat match goal with |- context [if ?b then _ else _] => destruct b end;
    reflexivity.
Qed.

(** With enough passes the loop leaves through its exit condition. *)
Lemma carry_loop_exits n t :
  minute t < 60 * (Z.of_nat n + 1) -> minute (carry_loop n t) < 60.
Proof.
  revert t. induction n as [|n IH]; intros t Hlt; simpl.
  - lia.
  - destruct (Z.leb_spec 60 (minute t)); [|lia].
    apply IH. rewrite carry_step_minute. lia.
Qed.

(** Passes beyond the exit change nothing. *)
Lemma carry_loop_stable n k t :
  minute (carry_loop n t) < 60 -> carry_loop (n + k) t = carry_loop n t.
Proof.
  revert t. induction n as [|n IH]; intros t Hlt; simpl in *.
  - destruct k; simpl; [reflexivity|].
    destruct (Z.leb_spec 60 (minute t)); [lia|reflexivity].
  - destruct (Z.leb_spec 60 (minute t)); [|reflexivity].
    apply IH. exact Hlt.
Qed.

Lemma carry_exits t : minute (carry t) < 60.
Proof.
  unfold carry. apply carry_loop_exits.
  destruct (Z.le_gt_cases 0 (minute t)) as [Hpos|Hneg].
  - rewrite Z2Nat.id by (apply Z.div_pos; lia).
    pose proof (Z.mod_pos_bound (minute t) 60 ltac:(lia)).
    pose proof (Z.div_mod (minute t) 60 ltac:(lia)). lia.
  - lia.
Qed.

Lemma carry_small t : minute t < 60 -> carry t = t.
Proof.
  intros Hlt. unfold carry.
  destruct (Z.to_nat (minute t / 60)); simpl; [reflexivity|].
  destruct (Z.leb_spec 60 (minute t)); [lia|reflexivity].
Qed.

Lemma carry_once t : 60 <= minute t < 120 -> carry t = carry_step t.
Proof.
  intros Hr. unfold carry.
  assert (minute t / 60 = 1) as ->.
  { symmetry. apply (Z.div_unique (minute t) 60 1 (minute t - 60)); lia. }
  simpl. destruct (Z.leb_spec 60 (minute t)); [reflexivity|lia].
Qed.

End Calendar.

(** An out-of-range hour, which the dataclass accepts, is where the
    total order breaks: the hour is reset, not carried. *)
Example advance_out_of_range_hour :
  total_minutes (advance_clock 1 (mkGameTime 1 1 1 30 59))
  < total_minutes (mkGameTime 1 1 1 30 59).
Proof. reflexivity. Qed.

(** C6.  For every game time within the documented ranges, advancing the
    clock by one minute gives a game time within the ranges whose
    [total_minutes] is strictly larger, and the carry is the expected
    one at each boundary: minute 59 rolls the hour, hour 23 the day,
    day 30 the month, month 12 the year.  Advancing year 1, month 2,
    day 30, 23:59 by two minutes gives year 1, month 3, day 1, 00:01. *)
Theorem advance_one_minute_carries (t : GameTime) :
  valid t ->
  let t' := advance_clock 1 t in
  valid t' /\
  total_minutes t < total_minutes t' /\
  (minute t < 59 ->
   t' = mkGameTime (year t) (month t) (day t) (hour t) (minute t + 1)) /\
  (minute t = 59 /\ hour t < 23 ->
   t' = mkGameTime (year t) (month t) (day t) (hour t + 1) 0) /\
  (minute t = 59 /\ hour t = 23 /\ day t < 30 ->
   t' = mkGameTime (year t) (month t) (day t + 1) 0 0) /\
  (minute t = 59 /\ hour t = 23 /\ day t = 30 /\ month t < 12 ->
   t' = mkGameTime (year t) (month t + 1) 1 0 0) /\
  (minute t = 59 /\ hour t = 23 /\ day t = 30 /\ month t = 12 ->
   t' = mkGameTime (year t + 1) 1 1 0 0) /\
  advance_clock 2 (mkGameTime 1 2 30 23 59) = mkGameTime 1 3 1 0 1.
Proof.
  destruct t as [y mo d h mi]. unfold valid, advance_clock. simpl.
  intros (Hy & Hmo & Hd & Hh & Hmi).
  destruct (Z.eq_dec mi 59) as [->|Hne].
  - rewrite carry_once by (simpl; lia).
    unfold carry_step, add_minutes, total_minutes; simpl.
    destruct (Z.leb_spec 24 (h + 1)); [destruct (Z.ltb_spec 30 (d + 1));
      [destruct (Z.ltb_spec 12 (mo + 1))|]|]; simpl;
      repeat split; intros; try lia; try (f_equal; lia).
  - rewrite carry_small by (simpl; lia).
    unfold add_minutes, total_minutes; simpl.
    repeat split; intros; try lia; try (f_equal; lia).
Qed.

Lemma advance_one_minute_carries_witness :
  valid (mkGameTime 1 12 30 23 59) /\
  total_minutes (mkGameTime 1 12 30 23 59)
  < total_minutes (advance_clock 1 (mkGameTime 1 12 30 23 59)).
Proof.
  assert (valid (mkGameTime 1 12 30 23 59)) as Hv by (unfold valid; simpl; lia).
  split; [exact Hv|].
  exact (proj1 (proj2 (advance_one_minute_carries (mkGameTime 1 12 30 23 59) Hv))).
Defined.

(** [_advance_time] changes the clock object of the manager by
    [advance_clock], whatever the weather and the callbacks do. *)
Lemma advance_time_clock (minutes : Z) (w : World) (t : GameTime) :
  clock_value w = Some t ->
  exists w', _advance_time minutes w = Some w' /\
             clock_value w' = Some (advance_clock minutes t).
Proof.
  unfold clock_value, _advance_time. intros ->.
  destruct (_update_weather _ _ _ _) as [tm r] eqn:Hweather.
  eexists. split; [reflexivity|]. simpl.
  assert (current_time tm = current_time (manager w)) as Hcur.
  { unfold _update_weather in Hweather.
    destruct (weather_change_due _ _ _);
      [destruct (_change_weather _ _ _)|]; injection Hweather as <- _; reflexivity. }
  unfold _process_temporal_events. destruct (fire_due _ _). simpl.
  rewrite Hcur. apply lookup_insert_eq.
Qed.


(** *** Weather *)

(** With the probability [__init__] sets, the chance test is a
    threshold on the batch size. *)
Lemma change_chance_threshold (m : Z) :
  negb (Qle_bool ((1 # 1000) * inject_Z m) (1 # 100)) = (10 <? m).
Proof.
  unfold Qle_bool, Qmult, inject_Z.
  change (negb (1 * m * 100 <=? 1 * 1000) = (10 <? m)).
  destruct (Z.leb_spec (1 * m * 100) (1 * 1000)), (Z.ltb_spec 10 m); simpl; lia.
Qed.

(** C4, as the code has it.  While the remaining duration stays
    positive, [_update_weather] lowers it by the batch size, and whether
    it re-rolls is decided by the batch size alone: with the
    probability 0.001 of [__init__], a batch of at most 10 minutes never
    re-rolls and takes nothing from the generator, and a batch of more
    than 10 minutes always re-rolls.  No random draw takes part in the
    decision. *)
Theorem update_weather_reroll_by_batch_size
    (now : GameTime) (m : Z) (tm : TimeManager) (r : Random) :
  weather_change_probability tm = (1 # 1000)%Q ->
  0 <= m < duration_remaining (current_weather tm) ->
  let w := current_weather tm in
  let w1 := mkWeather (weather_type w) (intensity w) (visibility w)
              (temperature w) (wind_speed w) (duration_remaining w - m) in
  _update_weather now m tm r =
    if 10 <? m
    then (set_weather (fst (_change_weather now w1 r)) tm,
          snd (_change_weather now w1 r))
    else (set_weather w1 tm, r).
Proof.
  intros Hp Hm. simpl. unfold _update_weather, reduce_duration, weather_change_due.
  rewrite Hp, change_chance_threshold.
  destruct (Z.ltb_spec 0 (duration_remaining (current_weather tm))); [|lia].
  simpl.
  destruct (Z.leb_spec (duration_remaining (current_weather tm) - m) 0); [lia|].
  simpl. destruct (10 <? m); [|reflexivity].
  destruct (_change_weather _ _ _); reflexivity.
Qed.

Lemma update_weather_reroll_by_batch_size_witness :
  _update_weather GameTime_default 5 settled_manager steady_random =
    (set_weather (mkWeather CLEAR 0 1 20 0 95) settled_manager, steady_random)
  /\ weather_type (current_weather
       (fst (_update_weather GameTime_default 11 settled_manager steady_random)))
     = CLOUDY.
Proof.
  split.
  - exact (update_weather_reroll_by_batch_size GameTime_default 5 settled_manager
             steady_random eq_refl ltac:(simpl; lia)).
  - rewrite (update_weather_reroll_by_batch_size GameTime_default 11 settled_manager
               steady_random eq_refl ltac:(simpl; lia)).
    reflexivity.
Defined.

(** *** Scheduled callbacks *)

Section Callbacks.

Variable now : GameTime.

Lemma execute_id e : ev_id (execute e now) = ev_id e.
Proof.
  unfold execute.
  destruct (callback_raises e); [reflexivity|].
  destruct (repeating e && (0 <? repeat_interval e)); reflexivity.
Qed.









End Callbacks.





(** *** The clock object and its copies *)

Lemma alloc_fresh (t : GameTime) (h : gmap nat GameTime) :
  h !! fst (alloc t h) = None.
Proof. unfold alloc. simpl. apply not_elem_of_dom, is_fresh. Qed.

Lemma setattrs_manager l assignments w :
  manager (setattrs l assignments w) = manager w.
Proof.
  unfold setattrs. revert w.
  induction assignments as [|fv rest IH]; intros w; simpl; [reflexivity|].
  rewrite IH. reflexivity.
Qed.

(** Assignments to one object leave every other object as it was. *)
Lemma setattrs_other l assignments w l' :
  l' <> l -> heap (setattrs l assignments w) !! l' = heap w !! l'.
Proof.
  intros Hne. unfold setattrs. revert w.
  induction assignments as [|fv rest IH]; intros w; simpl; [reflexivity|].
  rewrite IH. simpl. apply lookup_alter_ne. congruence.
Qed.



(** *** Batches of minutes *)

Lemma carry_step_calendar t :
  carrying t -> 60 <= minute t ->
  carrying (carry_step t) /\ calendar_minutes (carry_step t) = calendar_minutes t.
Proof.
  destruct t as [y mo d h mi]. unfold carrying, carry_step, calendar_minutes. simpl.
  intros (Hy & Hmo & Hd & Hh & Hmi) Hover.
  destruct (Z.leb_spec 24 (h + 1)); [destruct (Z.ltb_spec 30 (d + 1));
    [destruct (Z.ltb_spec 12 (mo + 1))|]|]; simpl; lia.
Qed.

Lemma carry_loop_calendar n t :
  carrying t ->
  carrying (carry_loop n t) /\
  calendar_minutes (carry_loop n t) = calendar_minutes t.
Proof.
  revert t. induction n as [|n IH]; intros t Ht; simpl; [tauto|].
  destruct (Z.leb_spec 60 (minute t)) as [Hover|]; [|tauto].
  destruct (carry_step_calendar t Ht Hover) as [Ht' Hcal].
  destruct (IH _ Ht') as [Hc Hcal']. split; [exact Hc|congruence].
Qed.

Lemma carry_calendar t :
  carrying t -> valid (carry t) /\ calendar_minutes (carry t) = calendar_minutes t.
Proof.
  intros Ht. pose proof (carry_exits t) as Hexit. unfold carry in *.
  destruct (carry_loop_calendar (Z.to_nat (minute t / 60)) t Ht) as [Hc Hcal].
  split; [|exact Hcal]. unfold valid. unfold carrying in Hc. lia.
Qed.

(** Two game times within the ranges at the same calendar position are
    the same. *)
Lemma calendar_minutes_inj a b :
  valid a -> valid b -> calendar_minutes a = calendar_minutes b -> a = b.
Proof.
  destruct a as [y1 mo1 d1 h1 mi1], b as [y2 mo2 d2 h2 mi2].
  unfold valid, calendar_minutes. simpl. intros Ha Hb Heq.
  assert (y1 = y2) by lia. subst.
  assert (mo1 = mo2) by lia. subst.
  assert (d1 = d2) by lia. subst.
  assert (h1 = h2) by lia. subst.
  f_equal. lia.
Qed.

Lemma advance_clock_calendar n t :
  valid t -> 0 <= n ->
  valid (advance_clock n t) /\
  calendar_minutes (advance_clock n t) = calendar_minutes t + n.
Proof.
  intros Ht Hn. unfold advance_clock.
  destruct (carry_calendar (add_minutes n t)) as [Hv Hcal].
  - destruct t. unfold valid in Ht. unfold carrying, add_minutes. simpl in *. lia.
  - split; [exact Hv|]. rewrite Hcal.
    destruct t. unfold calendar_minutes, add_minutes. simpl. lia.
Qed.

(** X1.  [total_minutes] tells the game times within the ranges apart:
    two of them with the same total are the same time, so that the
    comparison of totals orders them. *)
Theorem total_minutes_inj (a b : GameTime) :
  valid a -> valid b -> total_minutes a = total_minutes b -> a = b.
Proof.
  destruct a as [y1 mo1 d1 h1 mi1], b as [y2 mo2 d2 h2 mi2].
  unfold valid, total_minutes. simpl. intros Ha Hb Heq.
  assert (y1 = y2) by lia. subst.
  assert (mo1 = mo2) by lia. subst.
  assert (d1 = d2) by lia. subst.
  assert (h1 = h2) by lia. subst.
  f_equal. lia.
Qed.

Lemma total_minutes_inj_witness :
  mkGameTime 2 1 1 0 0 = advance_clock 1 (mkGameTime 1 12 30 23 59).
Proof.
  apply total_minutes_inj; [unfold valid; simpl; lia..|reflexivity].
Defined.

(** X2.  A batch of minutes moves the clock as its parts do one after
    the other: for a game time within the ranges and batches that are
    not negative, advancing by [a + b] minutes is advancing by [a] and
    then by [b], and the result is within the ranges. *)
Theorem advance_clock_add (a b : Z) (t : GameTime) :
  valid t -> 0 <= a -> 0 <= b ->
  valid (advance_clock (a + b) t) /\
  advance_clock (a + b) t = advance_clock b (advance_clock a t).
Proof.
  intros Ht Ha Hb.
  destruct (advance_clock_calendar (a + b) t Ht ltac:(lia)) as [Hv Hcal].
  destruct (advance_clock_calendar a t Ht Ha) as [Hva Hcala].
  destruct (advance_clock_calendar b _ Hva Hb) as [Hvb Hcalb].
  split; [exact Hv|]. apply calendar_minutes_inj; [assumption..|]. lia.
Qed.

Lemma advance_clock_add_witness :
  advance_clock (100000 + 12345) (mkGameTime 1 2 30 23 59)
  = advance_clock 12345 (advance_clock 100000 (mkGameTime 1 2 30 23 59)).
Proof.
  refine (proj2 (advance_clock_add 100000 12345 (mkGameTime 1 2 30 23 59) _ _ _));
    [unfold valid; simpl; lia|lia|lia].
Defined.

(** X3.  Advancing a game time within the ranges by [n] minutes raises
    [total_minutes] by [n], and by five days more for every year the
    clock rolls into: the year of the overflow loop has 360 days, the
    year of [total_minutes] 365.  The total never goes back. *)
Theorem advance_clock_total (n : Z) (t : GameTime) :
  valid t -> 0 <= n ->
  year t <= year (advance_clock n t) /\
  total_minutes (advance_clock n t)
  = total_minutes t + n + 7200 * (year (advance_clock n t) - year t).
Proof.
  intros Ht Hn.
  destruct (advance_clock_calendar n t Ht Hn) as [Hv Hcal].
  destruct t as [y mo d h mi], (advance_clock n (mkGameTime y mo d h mi))
    as [y' mo' d' h' mi'].
  unfold valid, calendar_minutes, total_minutes in *. simpl in *. lia.
Qed.

Lemma advance_clock_total_witness :
  total_minutes (advance_clock 3 (mkGameTime 1 12 30 23 58))
  = total_minutes (mkGameTime 1 12 30 23 58) + 3
    + 7200 * (year (advance_clock 3 (mkGameTime 1 12 30 23 58)) - 1).
Proof.
  refine (proj2 (advance_clock_total 3 (mkGameTime 1 12 30 23 58) _ _));
    [unfold valid; simpl; lia|lia].
Defined.

(** X4.  It is day from 5 o'clock to 17 o'clock and night otherwise,
    whatever the hour field holds: an hour outside 0..23 counts as
    night. *)
Theorem is_daytime_hours (t : GameTime) :
  is_daytime t = (5 <=? hour t) && (hour t <? 17) /\
  is_nighttime t = negb ((5 <=? hour t) && (hour t <? 17)).
Proof.
  assert (is_daytime t = (5 <=? hour t) && (hour t <? 17)) as H.
  { unfold is_daytime, get_time_of_day. cbv zeta.
    repeat match goal with
    | |- context [(?a <=? ?b)%Z] => destruct (Z.leb_spec a b); try lia
    | |- context [(?a <? ?b)%Z] => destruct (Z.ltb_spec a b); try lia
    end; reflexivity. }
  split; [exact H|]. unfold is_nighttime. rewrite H. reflexivity.
Qed.

(** *** Re-rolls of the weather *)

Lemma randbelow_range n r :
  0 < n -> unit_samples r -> 0 <= fst (randbelow n r) < n.
Proof.
  intros Hn Hr. unfold randbelow, random. cbv beta iota. cbn [fst samples drawn].
  destruct (Hr (drawn r)) as [H0 H1]. set (u := samples r (drawn r)) in *.
  split.
  - change 0 with (Qfloor 0). apply Qfloor_resp_le.
    apply Qmult_le_0_compat; [exact H0|].
    change 0%Q with (inject_Z 0). rewrite <- Zle_Qle. lia.
  - rewrite Zlt_Qlt. eapply Qle_lt_trans; [apply Qfloor_le|].
    rewrite <- (Qmult_1_l (inject_Z n)) at 2.
    apply Qmult_lt_compat_r; [|exact H1].
    change 0%Q with (inject_Z 0). rewrite <- Zlt_Qlt. exact Hn.
Qed.

(** Every season leaves at least two kinds once one is set aside. *)
Lemma other_weather_available s old :
  (2 <= length (List.filter (fun x => negb (bool_decide (x = old)))
                  (weather_patterns s)))%nat.
Proof. destruct s, old; vm_compute; lia. Qed.

(** The kind a re-roll picks. *)
Lemma change_weather_type now w r :
  weather_type (fst (_change_weather now w r)) =
    fst (choice (List.filter (fun x => negb (bool_decide (x = weather_type w)))
                   (weather_patterns (get_season now))) r).
Proof.
  unfold _change_weather. cbv zeta.
  assert ((1 <? length (weather_patterns (get_season now)))%nat = true) as ->
    by (destruct (get_season now); reflexivity).
  destruct (choice _ r) as [nw r1].
  unfold uniform, randint, randbelow, random. simpl.
  destruct nw; reflexivity.
Qed.

(** X5.  A re-roll never keeps the kind of weather it starts from, and
    picks a kind of the pattern of the current season (so never the
    crystal storm, which is in no pattern). *)
Theorem reroll_picks_another_kind (now : GameTime) (w : WeatherCondition) (r : Random) :
  unit_samples r ->
  weather_type (fst (_change_weather now w r)) <> weather_type w /\
  In (weather_type (fst (_change_weather now w r))) (weather_patterns (get_season now)) /\
  weather_type (fst (_change_weather now w r)) <> CRYSTAL_STORM.
Proof.
  intros Hr. rewrite change_weather_type. unfold choice.
  set (possible := List.filter _ _).
  pose proof (other_weather_available (get_season now) (weather_type w)) as Hlen.
  fold possible in Hlen.
  pose proof (randbelow_range (Z.of_nat (length possible)) r ltac:(lia) Hr) as Hk.
  destruct (randbelow _ r) as [k r']. simpl in *.
  assert (In (nth (Z.to_nat k) possible CLEAR) possible) as Hin
    by (apply nth_In; lia).
  apply filter_In in Hin. destruct Hin as [Hin Hne].
  apply negb_true_iff, bool_decide_eq_false in Hne.
  split; [exact Hne|]. split; [exact Hin|].
  intros Heq. rewrite Heq in Hin.
  destruct (get_season now); simpl in Hin; intuition discriminate.
Qed.

Lemma reroll_picks_another_kind_witness :
  weather_type (fst (_change_weather GameTime_default WeatherCondition_default
                       steady_random)) <> CLEAR.
Proof.
  refine (proj1 (reroll_picks_another_kind GameTime_default WeatherCondition_default
                   steady_random _)).
  intros n. split; simpl; lra.
Defined.

Lemma change_weather_ranges (now : GameTime) (w : WeatherCondition) (r : Random) :
  unit_samples r ->
  let w' := fst (_change_weather now w r) in
  30 <= duration_remaining w' <= 240 /\
  (3 # 10 <= intensity w')%Q /\ (intensity w' <= 1)%Q /\
  temperature w' = temperature w /\
  (weather_type w' = CLOUDY \/ weather_type w' = SNOW ->
   visibility w' = visibility w /\ wind_speed w' = wind_speed w).
Proof.
  intros Hr. cbv zeta. unfold _change_weather. cbv zeta.
  destruct (choice _ r) as [nw r1] eqn:Hchoice.
  assert (unit_samples r1) as Hr1.
  { unfold choice, randbelow, random in Hchoice. injection Hchoice as _ <-.
    exact Hr. }
  clear Hchoice.
  unfold uniform, randint, random. cbv beta iota.
  match goal with
  | |- context [randbelow ?n ?rr] =>
      pose proof (randbelow_range n rr ltac:(lia) Hr1) as Hd;
      destruct (randbelow n rr) as [k r3] eqn:Hk
  end.
  assert (unit_samples r3) as Hr3.
  { unfold randbelow, random in Hk. injection Hk as _ <-. exact Hr1. }
  simpl in Hd.
  destruct (Hr1 (drawn r1)) as [Hu0 Hu1].
  destruct (Hr3 (S (S (drawn r3)))) as [Hv0 Hv1].
  destruct nw; cbn [fst duration_remaining intensity temperature visibility
                    wind_speed weather_type samples drawn];
    (split; [lia|]); (split; [lra|]); (split; [lra|]);
    (split; [reflexivity|]); try (intros [|]; discriminate); tauto.
Qed.

(** X6.  A re-roll draws a duration of 30 to 240 minutes and an
    intensity of 0.3 to 1, and leaves the temperature alone.  For
    cloudy weather and snow it draws neither visibility nor wind
    speed: both stay as the weather before left them. *)
Theorem reroll_ranges (now : GameTime) (w : WeatherCondition) (r : Random) :
  unit_samples r ->
  let w' := fst (_change_weather now w r) in
  30 <= duration_remaining w' <= 240 /\
  (3 # 10 <= intensity w')%Q /\ (intensity w' <= 1)%Q /\
  temperature w' = temperature w /\
  (weather_type w' = CLOUDY \/ weather_type w' = SNOW ->
   visibility w' = visibility w /\ wind_speed w' = wind_speed w).
Proof. apply change_weather_ranges. Qed.

Lemma reroll_ranges_witness :
  30 <= duration_remaining
          (fst (_change_weather GameTime_default WeatherCondition_default
                  steady_random)) <= 240.
Proof.
  refine (proj1 (reroll_ranges GameTime_default WeatherCondition_default
                   steady_random _)).
  intros n. split; simpl; lra.
Defined.

Lemma update_weather_duration now m tm r :
  unit_samples r ->
  0 < duration_remaining (current_weather (fst (_update_weather now m tm r))) /\
  unit_samples (snd (_update_weather now m tm r)).
Proof.
  intros Hr. unfold _update_weather.
  destruct (weather_change_due _ _ _) eqn:Hdue.
  - pose proof (change_weather_ranges now (reduce_duration m (current_weather tm)) r Hr)
      as (Hd & _).
    destruct (_change_weather now _ r) as [w' r'] eqn:Hroll. simpl in *.
    split; [lia|].
    assert (samples r' = samples r) as Hs.
    { unfold _change_weather in Hroll. cbv zeta in Hroll.
      unfold choice, uniform, randint, randbelow, random in Hroll.
      cbv beta iota in Hroll.
      destruct (nth _ _ _); injection Hroll as _ <-; reflexivity. }
    intros n. rewrite Hs. apply Hr.
  - simpl. split; [|exact Hr].
    unfold weather_change_due in Hdue. apply orb_false_iff in Hdue.
    destruct Hdue as [Hpos _]. apply Z.leb_gt in Hpos. exact Hpos.
Qed.

(** X7.  After every weather update the remaining duration is
    positive: either the weather was re-rolled, with a new duration of
    at least 30 minutes, or the duration left was still positive. *)
Theorem update_weather_leaves_duration
    (now : GameTime) (m : Z) (tm : TimeManager) (r : Random) :
  unit_samples r ->
  0 < duration_remaining (current_weather (fst (_update_weather now m tm r))) /\
  unit_samples (snd (_update_weather now m tm r)).
Proof. apply update_weather_duration. Qed.

Lemma update_weather_leaves_duration_witness :
  0 < duration_remaining
        (current_weather
           (fst (_update_weather GameTime_default 500 settled_manager steady_random))).
Proof.
  refine (proj1 (update_weather_leaves_duration GameTime_default 500
                   settled_manager steady_random _)).
  intros n. split; simpl; lra.
Defined.

(** *** A tick of the scheduled callbacks *)

Section Tick.

Variable now : GameTime.

Lemma tick_event_id e : ev_id (tick_event now e) = ev_id e.
Proof. unfold tick_event. destruct (should_execute e now); [apply execute_id|reflexivity]. Qed.

Lemma tick_ids l : ids (map (tick_event now) l) = ids l.
Proof.
  unfold ids. rewrite map_map. apply map_ext. intros e. apply tick_event_id.
Qed.

(** The first loop, as a map and a filter. *)
Lemma fire_due_spec evs :
  fire_due now evs =
    (map (tick_event now) evs,
     map (tick_event now) (List.filter (leaves now) evs)).
Proof.
  induction evs as [|e rest IH]; simpl; [reflexivity|].
  rewrite IH.
  destruct (should_execute e now) eqn:Hdue; simpl.
  - assert (tick_event now e = execute e now) as Ht
      by (unfold tick_event; rewrite Hdue; reflexivity).
    assert (leaves now e = negb (repeating (execute e now))
                           || is_never (next_execution (execute e now))) as ->
      by (unfold leaves; rewrite Hdue; reflexivity).
    destruct (negb _ || _); simpl; rewrite Ht; reflexivity.
  - assert (tick_event now e = e) as ->
      by (unfold tick_event; rewrite Hdue; reflexivity).
    assert (leaves now e = false) as ->
      by (unfold leaves; rewrite Hdue; reflexivity).
    reflexivity.
Qed.

Lemma remove_events_skip rem x l :
  ~ In (ev_id x) (ids rem) ->
  remove_events rem (x :: l) = x :: remove_events rem l.
Proof.
  unfold remove_events. revert l.
  induction rem as [|r rem IH]; intros l Hnot; simpl; [reflexivity|].
  simpl in Hnot.
  destruct (Nat.eqb_spec (ev_id x) (ev_id r)) as [Heq|Hne];
    [exfalso; apply Hnot; left; congruence|].
  apply IH. tauto.
Qed.

(** The second loop takes off the pending list the callbacks the first
    loop marked, and no other, when the pending callbacks are distinct
    objects. *)
Lemma remove_events_partition evs :
  NoDup (ids evs) ->
  remove_events (map (tick_event now) (List.filter (leaves now) evs))
    (map (tick_event now) evs)
  = map (tick_event now) (List.filter (fun e => negb (leaves now e)) evs).
Proof.
  induction evs as [|e rest IH]; simpl; [reflexivity|].
  intros Hnd. apply NoDup_cons in Hnd as [Hnotin Hnd].
  destruct (leaves now e); simpl.
  - unfold remove_events in *. simpl. rewrite Nat.eqb_refl. apply IH. exact Hnd.
  - rewrite remove_events_skip; [rewrite IH by exact Hnd; reflexivity|].
    rewrite tick_event_id, tick_ids. intros Hin. apply Hnotin.
    apply list_elem_of_In. unfold ids in *.
    apply in_map_iff in Hin. destruct Hin as (y & Hy & Hin).
    apply filter_In in Hin. apply in_map_iff. exists y. tauto.
Qed.

Lemma tick_partition tm :
  NoDup (ids (temporal_events tm)) ->
  temporal_events (_process_temporal_events now tm)
    = map (tick_event now)
        (List.filter (fun e => negb (leaves now e)) (temporal_events tm)) /\
  completed_events (_process_temporal_events now tm)
    = completed_events tm
      ++ map (tick_event now) (List.filter (leaves now) (temporal_events tm)).
Proof.
  intros Hnd. unfold _process_temporal_events. rewrite fire_due_spec. simpl.
  rewrite remove_events_partition by exact Hnd. split; reflexivity.
Qed.

End Tick.

Lemma ids_inj l a b :
  NoDup (ids l) -> In a l -> In b l -> ev_id a = ev_id b -> a = b.
Proof.
  induction l as [|x rest IH]; simpl; [tauto|].
  intros Hnd. apply NoDup_cons in Hnd as [Hnotin Hnd].
  assert (forall y, In y rest -> ev_id y <> ev_id x) as Hfresh.
  { intros y Hy Heq. apply Hnotin. rewrite <- Heq.
    apply list_elem_of_In. apply in_map. exact Hy. }
  intros [<-|Ha] [<-|Hb] Heq; try reflexivity.
  - exfalso. apply (Hfresh b Hb). congruence.
  - exfalso. apply (Hfresh a Ha). congruence.
  - apply IH; assumption.
Qed.

(** A callback that stays pending is not among those a tick completes. *)
Lemma tick_completes_only_leavers now tm e x :
  NoDup (ids (temporal_events tm)) ->
  In e (temporal_events tm) -> leaves now e = false ->
  In x (completed_events (_process_temporal_events now tm)) ->
  In x (completed_events tm) \/ ev_id x <> ev_id e.
Proof.
  intros Hnd Hin Hstay Hx.
  rewrite (proj2 (tick_partition now tm Hnd)) in Hx.
  apply in_app_iff in Hx. destruct Hx as [Hx|Hx]; [left; exact Hx|right].
  apply in_map_iff in Hx. destruct Hx as (y & <- & Hy).
  apply filter_In in Hy. destruct Hy as [Hy Hleaves].
  rewrite tick_event_id. intros Heq.
  rewrite (ids_inj _ y e Hnd Hy Hin Heq) in Hleaves. congruence.
Qed.

(** X8.  A tick of the scheduled callbacks splits the pending list in
    two, keeping the order: the callbacks that are due and afterwards
    not repeating or exhausted go, executed, to the end of the
    completed list; all the others stay pending, the due ones
    executed.  (The pending callbacks are distinct objects.) *)
Theorem tick_splits_pending (now : GameTime) (tm : TimeManager) :
  NoDup (ids (temporal_events tm)) ->
  temporal_events (_process_temporal_events now tm)
    = map (tick_event now)
        (List.filter (fun e => negb (leaves now e)) (temporal_events tm)) /\
  completed_events (_process_temporal_events now tm)
    = completed_events tm
      ++ map (tick_event now) (List.filter (leaves now) (temporal_events tm)).
Proof. apply tick_partition. Qed.

Lemma tick_splits_pending_witness :
  temporal_events
    (_process_temporal_events GameTime_default (schedule_one_shots 2 settled_manager))
  = [].
Proof.
  refine (eq_trans (proj1 (tick_splits_pending GameTime_default
                             (schedule_one_shots 2 settled_manager) _)) _).
  - apply (bool_decide_unpack _). vm_compute. exact I.
  - reflexivity.
Defined.

(** X9.  A repeating callback with a positive interval that is due and
    whose call returns stays pending, set to the current total of
    minutes plus its interval: it is not due any more at the current
    time, and it does not go to the completed list. *)
Theorem repeating_callback_rearmed
    (now : GameTime) (tm : TimeManager) (e : TemporalEvent) :
  NoDup (ids (temporal_events tm)) ->
  In e (temporal_events tm) ->
  repeating e = true -> 0 < repeat_interval e -> callback_raises e = false ->
  should_execute e now = true ->
  let tm' := _process_temporal_events now tm in
  let e' := set_next_execution (At (total_minutes now + repeat_interval e)) e in
  In e' (temporal_events tm') /\
  should_execute e' now = false /\
  (forall x, In x (completed_events tm') ->
             In x (completed_events tm) \/ ev_id x <> ev_id e).
Proof.
  intros Hnd Hin Hrep Hint Hret Hdue. cbv zeta.
  assert (execute e now
          = set_next_execution (At (total_minutes now + repeat_interval e)) e) as Hex.
  { unfold execute. rewrite Hret, Hrep.
    destruct (Z.ltb_spec 0 (repeat_interval e)); [reflexivity|lia]. }
  assert (leaves now e = false) as Hstay.
  { unfold leaves. rewrite Hdue, Hex. simpl. rewrite Hrep. reflexivity. }
  split; [|split].
  - rewrite (proj1 (tick_partition now tm Hnd)).
    apply in_map_iff. exists e. split.
    + unfold tick_event. rewrite Hdue. exact Hex.
    + apply filter_In. rewrite Hstay. tauto.
  - unfold should_execute. simpl. apply Z.leb_gt. lia.
  - intros x. apply tick_completes_only_leavers; assumption.
Qed.

Lemma repeating_callback_rearmed_witness :
  In (set_next_execution (At (total_minutes GameTime_default + 30))
        (TemporalEvent_init 0 GameTime_default false "bell" true 30))
     (temporal_events (_process_temporal_events GameTime_default hourly_bell)).
Proof.
  refine (proj1 (repeating_callback_rearmed GameTime_default hourly_bell
                   (TemporalEvent_init 0 GameTime_default false "bell" true 30)
                   _ _ eq_refl _ eq_refl eq_refl)).
  - apply (bool_decide_unpack _). vm_compute. exact I.
  - simpl. tauto.
  - simpl. lia.
Defined.

(** X10.  A repeating callback whose interval is not positive is
    treated as a one-shot: when it is due and its call returns, its
    [next_execution] becomes infinity and it goes to the completed
    list, off the pending list. *)
Theorem repeating_without_interval_completes
    (now : GameTime) (tm : TimeManager) (e : TemporalEvent) :
  NoDup (ids (temporal_events tm)) ->
  In e (temporal_events tm) ->
  repeating e = true -> repeat_interval e <= 0 -> callback_raises e = false ->
  should_execute e now = true ->
  let tm' := _process_temporal_events now tm in
  In (set_next_execution Never e) (completed_events tm') /\
  (forall x, In x (temporal_events tm') -> ev_id x <> ev_id e).
Proof.
  intros Hnd Hin Hrep Hint Hret Hdue. cbv zeta.
  assert (execute e now = set_next_execution Never e) as Hex.
  { unfold execute. rewrite Hret, Hrep.
    destruct (Z.ltb_spec 0 (repeat_interval e)); [lia|reflexivity]. }
  assert (leaves now e = true) as Hgo.
  { unfold leaves. rewrite Hdue, Hex. simpl. apply orb_true_r. }
  destruct (tick_partition now tm Hnd) as [-> ->]. split.
  - apply in_app_iff. right. apply in_map_iff. exists e. split.
    + unfold tick_event. rewrite Hdue. exact Hex.
    + apply filter_In. tauto.
  - intros x Hx Heq. apply in_map_iff in Hx. destruct Hx as (y & <- & Hy).
    apply filter_In in Hy. destruct Hy as [Hy Hstay].
    rewrite tick_event_id in Heq.
    rewrite (ids_inj _ y e Hnd Hy Hin Heq), Hgo in Hstay. discriminate.
Qed.

Lemma repeating_without_interval_completes_witness :
  In (set_next_execution Never
        (TemporalEvent_init 0 GameTime_default false "bell" true 0))
     (completed_events
        (_process_temporal_events GameTime_default
           (snd (schedule_event GameTime_default false "bell" true 0
                   settled_manager)))).
Proof.
  refine (proj1 (repeating_without_interval_completes GameTime_default _
                   (TemporalEvent_init 0 GameTime_default false "bell" true 0)
                   _ _ eq_refl _ eq_refl eq_refl)).
  - apply (bool_decide_unpack _). vm_compute. exact I.
  - simpl. tauto.
  - simpl. lia.
Defined.

(** X11.  When the call of a due callback raises, the callback is left
    as it was, [next_execution] included.  A repeating one stays
    pending and is still due, so that the next tick calls it again; a
    non-repeating one goes to the completed list all the same. *)
Theorem raising_callback_kept_as_is
    (now : GameTime) (tm : TimeManager) (e : TemporalEvent) :
  NoDup (ids (temporal_events tm)) ->
  In e (temporal_events tm) ->
  callback_raises e = true ->
  should_execute e now = true ->
  let tm' := _process_temporal_events now tm in
  if repeating e
  then In e (temporal_events tm')
  else In e (completed_events tm') /\
       (forall x, In x (temporal_events tm') -> ev_id x <> ev_id e).
Proof.
  intros Hnd Hin Hraise Hdue. cbv zeta.
  assert (tick_event now e = e) as Htick.
  { unfold tick_event, execute. rewrite Hdue, Hraise. reflexivity. }
  assert (leaves now e = negb (repeating e)) as Hleaves.
  { unfold leaves, execute. rewrite Hdue, Hraise. simpl.
    unfold should_execute in Hdue.
    destruct (next_execution e); [simpl; apply orb_false_r|discriminate]. }
  destruct (tick_partition now tm Hnd) as [-> ->].
  destruct (repeating e) eqn:Hrep; simpl in Hleaves.
  - apply in_map_iff. exists e. split; [exact Htick|].
    apply filter_In. rewrite Hleaves. tauto.
  - split.
    + apply in_app_iff. right. apply in_map_iff. exists e.
      split; [exact Htick|]. apply filter_In. tauto.
    + intros x Hx Heq. apply in_map_iff in Hx. destruct Hx as (y & <- & Hy).
      apply filter_In in Hy. destruct Hy as [Hy Hstay].
      rewrite tick_event_id in Heq.
      rewrite (ids_inj _ y e Hnd Hy Hin Heq), Hleaves in Hstay. discriminate.
Qed.

Lemma raising_callback_kept_as_is_witness :
  In (TemporalEvent_init 0 GameTime_default true "bell" true 30)
     (temporal_events
        (_process_temporal_events GameTime_default
           (snd (schedule_event GameTime_default true "bell" true 30
                   settled_manager)))).
Proof.
  refine (raising_callback_kept_as_is GameTime_default
            (snd (schedule_event GameTime_default true "bell" true 30
                    settled_manager))
            (TemporalEvent_init 0 GameTime_default true "bell" true 30)
            _ _ eq_refl eq_refl).
  - apply (bool_decide_unpack _). vm_compute. exact I.
  - simpl. tauto.
Defined.

(** *** Scheduling and cancelling *)

(** The order of the calendar is the order of the totals. *)
Lemma total_minutes_calendar a b :
  valid a -> valid b ->
  (calendar_minutes a <= calendar_minutes b -> total_minutes a <= total_minutes b) /\
  (calendar_minutes a < calendar_minutes b -> total_minutes a < total_minutes b).
Proof.
  destruct a as [y1 mo1 d1 h1 mi1], b as [y2 mo2 d2 h2 mi2].
  unfold valid, calendar_minutes, total_minutes. simpl. intros Ha Hb.
  split; intros Hle; destruct (Z.lt_trichotomy y1 y2) as [|[->|]]; lia.
Qed.

Lemma copy_same t : copy t = t.
Proof. destruct t. reflexivity. Qed.

(** X12.  A callback scheduled [n > 0] minutes from now, on a clock
    within the ranges, is not due now nor after any batch of fewer
    than [n] minutes, and is due after every batch of [n] minutes or
    more. *)
Theorem relative_event_due_after_delay
    (now : GameTime) (n : Z) (raises : bool) (name : string)
    (repeating : bool) (repeat_interval : Z) (tm : TimeManager) :
  valid now -> 0 < n ->
  let e := fst (schedule_relative_event now n raises name repeating
                  repeat_interval tm) in
  forall m, 0 <= m ->
    should_execute e (advance_clock m now) = (n <=? m).
Proof.
  intros Hnow Hn. cbv zeta. intros m Hm.
  unfold schedule_relative_event, schedule_event, TemporalEvent_init, should_execute.
  simpl. rewrite copy_same. fold (advance_clock n now).
  destruct (advance_clock_calendar n now Hnow ltac:(lia)) as [Hvn Hcn].
  destruct (advance_clock_calendar m now Hnow Hm) as [Hvm Hcm].
  destruct (total_minutes_calendar (advance_clock n now) (advance_clock m now) Hvn Hvm)
    as [Hle _].
  destruct (total_minutes_calendar (advance_clock m now) (advance_clock n now) Hvm Hvn)
    as [_ Hlt].
  destruct (Z.leb_spec n m).
  - apply Z.leb_le. apply Hle. lia.
  - apply Z.leb_gt. apply Hlt. lia.
Qed.

Lemma relative_event_due_after_delay_witness :
  should_execute
    (fst (schedule_relative_event (mkGameTime 1 12 30 23 30) 45 false "Unnamed Event"
            false 0 settled_manager))
    (advance_clock 44 (mkGameTime 1 12 30 23 30)) = false.
Proof.
  refine (relative_event_due_after_delay (mkGameTime 1 12 30 23 30) 45 false
            "Unnamed Event" false 0 settled_manager _ _ 44 _);
    [unfold valid; simpl; lia|lia|lia].
Defined.

Lemma existsb_fresh_id id l :
  Forall (fun e => (ev_id e < id)%nat) l ->
  existsb (fun e => Nat.eqb (ev_id e) id) l = false.
Proof.
  induction 1 as [|x rest Hx _ IH]; simpl; [reflexivity|].
  rewrite IH. destruct (Nat.eqb_spec (ev_id x) id); [lia|reflexivity].
Qed.

Lemma remove_event_fresh id l :
  Forall (fun e => (ev_id e < id)%nat) l -> remove_event id l = l.
Proof.
  induction 1 as [|x rest Hx _ IH]; simpl; [reflexivity|].
  rewrite IH. destruct (Nat.eqb_spec (ev_id x) id); [lia|reflexivity].
Qed.

Lemma remove_event_snoc_fresh e l :
  Forall (fun x => (ev_id x < ev_id e)%nat) l ->
  remove_event (ev_id e) (l ++ [e]) = l.
Proof.
  induction 1 as [|x rest Hx _ IH]; simpl; [rewrite Nat.eqb_refl; reflexivity|].
  rewrite IH. destruct (Nat.eqb_spec (ev_id x) (ev_id e)); [lia|reflexivity].
Qed.

(** X13.  Cancelling a callback right after scheduling it returns true
    and leaves the pending list as it was before the scheduling;
    cancelling it once more returns false and changes nothing. *)
Theorem cancel_undoes_schedule
    (event_time : GameTime) (raises : bool) (name : string) (repeating : bool)
    (repeat_interval : Z) (tm : TimeManager) :
  well_numbered tm ->
  let e := fst (schedule_event event_time raises name repeating repeat_interval tm) in
  let tm1 := snd (schedule_event event_time raises name repeating repeat_interval tm) in
  let tm2 := fst (cancel_event e tm1) in
  snd (cancel_event e tm1) = true /\
  temporal_events tm2 = temporal_events tm /\
  completed_events tm2 = completed_events tm /\
  cancel_event e tm2 = (tm2, false).
Proof.
  intros [Hnd Hbelow]. cbv zeta. unfold schedule_event. cbn [fst snd].
  set (e := TemporalEvent_init _ _ _ _ _ _).
  set (tm1 := set_events _ _ _ tm).
  assert (ev_id e = allocated_events tm) as Hid by reflexivity.
  assert (is_pending e tm1 = true) as Hp.
  { unfold is_pending. subst tm1. cbn [temporal_events set_events].
    rewrite existsb_app. cbn [existsb]. rewrite Nat.eqb_refl.
    rewrite orb_true_l. apply orb_true_r. }
  assert (cancel_event e tm1
          = (set_events (temporal_events tm) (completed_events tm)
               (S (allocated_events tm)) tm, true)) as Hc.
  { unfold cancel_event. rewrite Hp. subst tm1.
    cbn [temporal_events completed_events allocated_events set_events].
    rewrite remove_event_snoc_fresh by (rewrite Hid; exact Hbelow). reflexivity. }
  rewrite Hc. cbn [fst snd temporal_events completed_events set_events].
  split; [reflexivity|]. split; [reflexivity|]. split; [reflexivity|].
  unfold cancel_event, is_pending. cbn [temporal_events set_events].
  rewrite Hid, (existsb_fresh_id _ _ Hbelow). reflexivity.
Qed.

Lemma cancel_undoes_schedule_witness :
  temporal_events
    (fst (cancel_event
            (fst (schedule_event GameTime_default false "bell" false 0 hourly_bell))
            (snd (schedule_event GameTime_default false "bell" false 0 hourly_bell))))
  = temporal_events hourly_bell.
Proof.
  refine (proj1 (proj2 (cancel_undoes_schedule GameTime_default false "bell" false 0
                          hourly_bell _))).
  split.
  - apply (bool_decide_unpack _). vm_compute. exact I.
  - repeat constructor.
Defined.

(** X14.  [set_time] stores a copy of the time it is given: the clock
    then shows the given time, and whatever the caller assigns
    afterwards to the object it passed does not reach the clock. *)
Theorem set_time_stores_a_copy (game_time : nat) (w : World) (t : GameTime) :
  heap w !! game_time = Some t ->
  exists w1,
    set_time game_time w = Some w1 /\
    clock_value w1 = Some t /\
    forall assignments : list (Field * Z),
      clock_value (setattrs game_time assignments w1) = Some t.
Proof.
  intros Ht. unfold set_time. rewrite Ht, copy_same.
  pose proof (alloc_fresh t (heap w)) as Hfresh.
  unfold alloc in *. cbn [fst] in Hfresh.
  set (l := fresh (dom (heap w))) in *.
  assert (l <> game_time) as Hne by congruence.
  eexists. split; [reflexivity|]. unfold clock_value. simpl.
  split; [apply lookup_insert_eq|].
  intros assignments. rewrite setattrs_manager. simpl.
  rewrite setattrs_other by exact Hne. simpl. apply lookup_insert_eq.
Qed.

Lemma set_time_stores_a_copy_witness :
  exists w1,
    set_time 0 (TimeManager_init 60 steady_random) = Some w1 /\
    clock_value w1 = Some GameTime_default /\
    forall assignments : list (Field * Z),
      clock_value (setattrs 0 assignments w1) = Some GameTime_default.
Proof.
  apply (set_time_stores_a_copy 0 (TimeManager_init 60 steady_random)
           GameTime_default).
  reflexivity.
Defined.

(** X15.  [set_time_scale] keeps the scale between 0.1 and 3600: a
    scale within the bounds is stored as given, one beyond a bound is
    replaced by the bound. *)
Theorem set_time_scale_clamps (scale : Q) (tm : TimeManager) :
  let s := time_scale (set_time_scale scale tm) in
  (1 # 10 <= s)%Q /\ (s <= 3600)%Q /\
  ((1 # 10 <= scale)%Q -> (scale <= 3600)%Q -> (s == scale)%Q) /\
  ((scale < 1 # 10)%Q -> (s == 1 # 10)%Q) /\
  ((3600 < scale)%Q -> (s == 3600)%Q).
Proof.
  cbv zeta. unfold set_time_scale, py_max, py_min. cbn [time_scale].
  destruct (Qle_bool 3600 scale) eqn:Hhi.
  - apply Qle_bool_iff in Hhi.
    assert (Qle_bool 3600 (1 # 10) = false) as -> by reflexivity.
    repeat split; intros; lra.
  - assert (~ (3600 <= scale)%Q) as Hlt
      by (intros H; apply Qle_bool_iff in H; congruence).
    destruct (Qle_bool scale (1 # 10)) eqn:Hlo.
    + apply Qle_bool_iff in Hlo. repeat split; intros; lra.
    + assert (~ (scale <= 1 # 10)%Q) as Hgt
        by (intros H; apply Qle_bool_iff in H; congruence).
      repeat split; intros; lra.
Qed.

(** X16.  The light level is between the floor 0.05 and 1, and the
    weather never brightens: the level is at most the one of the same
    time of day under a clear sky. *)
Theorem light_level_bounds (now : GameTime) (tm : TimeManager) :
  (5 # 100 <= get_light_level now tm)%Q /\
  (get_light_level now tm <= 1)%Q /\
  (get_light_level now tm <= py_max (5 # 100) (base_light (get_time_of_day now)))%Q.
Proof.
  unfold get_light_level.
  destruct (get_time_of_day now), (weather_type (current_weather tm));
    vm_compute; repeat split; intros H; discriminate H.
Qed.

(** *** A whole tick *)

Lemma filter_ids_NoDup (P : TemporalEvent -> bool) l :
  NoDup (ids l) -> NoDup (ids (List.filter P l)).
Proof.
  induction l as [|x rest IH]; simpl; [tauto|].
  intros Hnd. apply NoDup_cons in Hnd as [Hnotin Hnd].
  destruct (P x); simpl; [|apply IH; exact Hnd].
  apply NoDup_cons. split; [|apply IH; exact Hnd].
  intros Hin. apply Hnotin. apply list_elem_of_In. apply list_elem_of_In in Hin.
  unfold ids in *. apply in_map_iff in Hin. destruct Hin as (y & Hy & Hin).
  apply filter_In in Hin. apply in_map_iff. exists y. tauto.
Qed.

Lemma tick_well_numbered now tm :
  well_numbered tm -> well_numbered (_process_temporal_events now tm).
Proof.
  intros [Hnd Hbelow].
  assert (allocated_events (_process_temporal_events now tm) = allocated_events tm)
    as Hcount.
  { unfold _process_temporal_events. destruct (fire_due _ _). reflexivity. }
  unfold well_numbered. rewrite Hcount.
  rewrite (proj1 (tick_partition now tm Hnd)). split.
  - change (NoDup (ids (map (tick_event now)
             (List.filter (fun e => negb (leaves now e)) (temporal_events tm))))).
    rewrite tick_ids. apply filter_ids_NoDup. exact Hnd.
  - apply Forall_forall. intros x Hx. apply list_elem_of_In, in_map_iff in Hx.
    destruct Hx as (y & <- & Hy). apply filter_In in Hy.
    rewrite tick_event_id. rewrite Forall_forall in Hbelow.
    apply Hbelow, list_elem_of_In. tauto.
Qed.

(** X17.  A tick leaves the time manager fit for the next one.  From a
    clock within the ranges, [_advance_time] with a batch that is not
    negative returns with the clock advanced within the ranges, the
    remembered time of day and season those of the clock, a positive
    remaining duration of the weather, and the pending callbacks still
    distinct objects. *)
Theorem advance_time_keeps (minutes : Z) (w : World) (t : GameTime) :
  clock_value w = Some t -> valid t -> 0 <= minutes ->
  unit_samples (rng w) -> well_numbered (manager w) ->
  exists w',
    _advance_time minutes w = Some w' /\
    clock_value w' = Some (advance_clock minutes t) /\
    valid (advance_clock minutes t) /\
    last_time_of_day (manager w') = get_time_of_day (advance_clock minutes t) /\
    last_season (manager w') = get_season (advance_clock minutes t) /\
    0 < duration_remaining (current_weather (manager w')) /\
    unit_samples (rng w') /\
    well_numbered (manager w').
Proof.
  intros Hclock Hvalid Hmin Hrng Hnum.
  destruct (advance_time_clock minutes w t Hclock) as (w' & Hrun & Hclock').
  exists w'. split; [exact Hrun|]. split; [exact Hclock'|].
  split; [apply advance_clock_calendar; assumption|].
  unfold _advance_time, clock_value in *. rewrite Hclock in Hrun.
  set (now := advance_clock minutes t) in *.
  set (tm0 := set_last (get_time_of_day now) (get_season now) (manager w)) in *.
  pose proof (update_weather_duration now minutes tm0 (rng w) Hrng) as [Hdur Hrng'].
  assert (well_numbered (fst (_update_weather now minutes tm0 (rng w)))
          /\ last_time_of_day (fst (_update_weather now minutes tm0 (rng w)))
             = get_time_of_day now
          /\ last_season (fst (_update_weather now minutes tm0 (rng w)))
             = get_season now) as (Hnum' & Htod & Hseason).
  { unfold _update_weather. destruct (weather_change_due _ _ _);
      [destruct (_change_weather _ _ _)|]; repeat split; exact Hnum || apply Hnum. }
  destruct (_update_weather now minutes tm0 (rng w)) as [tm1 r1].
  injection Hrun as <-. cbn [manager rng fst snd] in *.
  pose proof (tick_well_numbered now tm1 Hnum') as Hnum''.
  unfold _process_temporal_events in *. destruct (fire_due now _).
  cbn [last_time_of_day last_season current_weather set_events] in *.
  split; [exact Htod|]. split; [exact Hseason|]. split; [exact Hdur|].
  split; [exact Hrng'|exact Hnum''].
Qed.

Lemma advance_time_keeps_witness :
  exists w',
    _advance_time 100 (TimeManager_init 60 steady_random) = Some w' /\
    clock_value w' = Some (advance_clock 100 GameTime_default).
Proof.
  destruct (advance_time_keeps 100 (TimeManager_init 60 steady_random)
              GameTime_default eq_refl) as (w' & H1 & H2 & _).
  - unfold valid. simpl. lia.
  - lia.
  - intros n. split; simpl; lra.
  - split; constructor.
  - exists w'. split; assumption.
Defined.

End Clock.

(** ** The event manager ([event_manager.py]) *)

Module Events.

Inductive EventType :=
  | PLAYER_LEVEL_UP | PLAYER_DIED | PLAYER_MOVED | PLAYER_HEALTH_CHANGED
  | PLAYER_MANA_CHANGED
  | COMBAT_STARTED | COMBAT_ENDED | ATTACK_PERFORMED | DAMAGE_DEALT | SKILL_USED
  | STATUS_EFFECT_APPLIED | STATUS_EFFECT_REMOVED
  | QUEST_STARTED | QUEST_COMPLETED | QUEST_FAILED | QUEST_OBJECTIVE_UPDATED
  | DAY_NIGHT_CHANGED | WEATHER_CHANGED | LOCATION_ENTERED | LOCATION_EXITED
  | NPC_INTERACTION
  | ITEM_ACQUIRED | ITEM_USED | ITEM_EQUIPPED | ITEM_UNEQUIPPED | ITEM_SOLD
  | ITEM_CRAFTED
  | MENU_OPENED | MENU_CLOSED | DIALOGUE_STARTED | DIALOGUE_ENDED
  | GAME_PAUSED | GAME_RESUMED | SAVE_GAME | LOAD_GAME | SETTINGS_CHANGED.

#[global] Instance EventType_eq_dec : EqDecision EventType.
Proof. solve_decision. Defined.

Definition all_event_types : list EventType :=
  [PLAYER_LEVEL_UP; PLAYER_DIED; PLAYER_MOVED; PLAYER_HEALTH_CHANGED;
   PLAYER_MANA_CHANGED;
   COMBAT_STARTED; COMBAT_ENDED; ATTACK_PERFORMED; DAMAGE_DEALT; SKILL_USED;
   STATUS_EFFECT_APPLIED; STATUS_EFFECT_REMOVED;
   QUEST_STARTED; QUEST_COMPLETED; QUEST_FAILED; QUEST_OBJECTIVE_UPDATED;
   DAY_NIGHT_CHANGED; WEATHER_CHANGED; LOCATION_ENTERED; LOCATION_EXITED;
   NPC_INTERACTION;
   ITEM_ACQUIRED; ITEM_USED; ITEM_EQUIPPED; ITEM_UNEQUIPPED; ITEM_SOLD;
   ITEM_CRAFTED;
   MENU_OPENED; MENU_CLOSED; DIALOGUE_STARTED; DIALOGUE_ENDED;
   GAME_PAUSED; GAME_RESUMED; SAVE_GAME; LOAD_GAME; SETTINGS_CHANGED].

(** The place of a kind in the enumeration. *)
Definition EventType_index (t : EventType) : nat :=
  match t with
  | PLAYER_LEVEL_UP => 0 | PLAYER_DIED => 1 | PLAYER_MOVED => 2
  | PLAYER_HEALTH_CHANGED => 3 | PLAYER_MANA_CHANGED => 4
  | COMBAT_STARTED => 5 | COMBAT_ENDED => 6 | ATTACK_PERFORMED => 7
  | DAMAGE_DEALT => 8 | SKILL_USED => 9 | STATUS_EFFECT_APPLIED => 10
  | STATUS_EFFECT_REMOVED => 11 | QUEST_STARTED => 12 | QUEST_COMPLETED => 13
  | QUEST_FAILED => 14 | QUEST_OBJECTIVE_UPDATED => 15
  | DAY_NIGHT_CHANGED => 16 | WEATHER_CHANGED => 17 | LOCATION_ENTERED => 18
  | LOCATION_EXITED => 19 | NPC_INTERACTION => 20 | ITEM_ACQUIRED => 21
  | ITEM_USED => 22 | ITEM_EQUIPPED => 23 | ITEM_UNEQUIPPED => 24
  | ITEM_SOLD => 25 | ITEM_CRAFTED => 26 | MENU_OPENED => 27
  | MENU_CLOSED => 28 | DIALOGUE_STARTED => 29 | DIALOGUE_ENDED => 30
  | GAME_PAUSED => 31 | GAME_RESUMED => 32 | SAVE_GAME => 33
  | LOAD_GAME => 34 | SETTINGS_CHANGED => 35
  end.

#[global] Instance EventType_countable : Countable EventType.
Proof.
  refine (inj_countable EventType_index (fun n => all_event_types !! n) _).
  intros []; reflexivity.
Defined.

(** [GameEvent]: the payload is a dictionary of strings here, the
    timestamp a reading of [time.time()]. *)
Record GameEvent := mkGameEvent {
  event_type : EventType;
  data : gmap string string;
  timestamp : Q;
  source : option string
}.

(** What a handler does to the manager while it runs: calls of [emit]
    (with the reading of the wall clock at the call) and of
    [process_events]. *)
Inductive Action :=
  | Emit (event_type : EventType) (data : option (gmap string string))
         (source : option string) (immediate : bool) (now : Q)
  | ProcessEvents.

(** How the call of a handler ends: it returns whether the event is
    consumed, or it raises. *)
Inductive Outcome := Returns (consumed : bool) | Raises.

Record Reaction := mkReaction {
  actions : list Action;
  outcome : Outcome
}.

(** An [EventListener], seen through the weak reference the manager
    keeps: [alive] tells whether the reference still has its object. *)
Record EventListener := mkListener {
  listener_id : nat;
  priority : Z;
  enabled : bool;
  alive : bool;
  handle_event : GameEvent -> Reaction
}.

(** [_listeners] is a [defaultdict(list)]: the lookup of a kind that
    is not a key gives the empty list.  The last two fields are not in
    the source:
    they are the record of the run that the properties speak about,
    [dispatched] every event [_process_event] was called with and
    [queued] every event appended to the queue, both in order.  Nothing
    reads them. *)
Record EventManager := mkEventManager {
  _listeners : gmap EventType (list EventListener);
  _global_listeners : list EventListener;
  _event_queue : list GameEvent;
  _processing : bool;
  _event_history : list GameEvent;
  dispatched : list GameEvent;
  queued : list GameEvent
}.

Definition _max_history : nat := 1000.

(** [EventManager.__init__]. *)
Definition EventManager_init : EventManager :=
  mkEventManager ∅ [] [] false [] [] [].

Definition set_queue (q : list GameEvent) (em : EventManager) : EventManager :=
  mkEventManager (_listeners em) (_global_listeners em) q (_processing em)
    (_event_history em) (dispatched em) (queued em).

Definition set_processing (b : bool) (em : EventManager) : EventManager :=
  mkEventManager (_listeners em) (_global_listeners em) (_event_queue em) b
    (_event_history em) (dispatched em) (queued em).

Definition set_history (h : list GameEvent) (em : EventManager) : EventManager :=
  mkEventManager (_listeners em) (_global_listeners em) (_event_queue em)
    (_processing em) h (dispatched em) (queued em).

Definition set_global_listeners (l : list EventListener) (em : EventManager)
    : EventManager :=
  mkEventManager (_listeners em) l (_event_queue em) (_processing em)
    (_event_history em) (dispatched em) (queued em).

Definition note_dispatched (event : GameEvent) (em : EventManager) : EventManager :=
  mkEventManager (_listeners em) (_global_listeners em) (_event_queue em)
    (_processing em) (_event_history em) (dispatched em ++ [event]) (queued em).

Definition note_queued (event : GameEvent) (em : EventManager) : EventManager :=
  mkEventManager (_listeners em) (_global_listeners em) (_event_queue em)
    (_processing em) (_event_history em) (dispatched em) (queued em ++ [event]).

(** The first three lines of [_process_event]: append, then drop the
    oldest entry when the list is over its capacity. *)
Definition add_to_history (event : GameEvent) (em : EventManager) : EventManager :=
  let h := _event_history em ++ [event] in
  set_history (if (_max_history <? length h)%nat then tail h else h) em.

(** The entry of [_process_event]: the event is on record, and in the
    history. *)
Definition begin_dispatch (event : GameEvent) (em : EventManager) : EventManager :=
  add_to_history event (note_dispatched event em).

(** [self._event_queue.append(event)]. *)
Definition enqueue (event : GameEvent) (em : EventManager) : EventManager :=
  set_queue (_event_queue em ++ [event]) (note_queued event em).

(** The most recent [_max_history] entries of a list, oldest first. *)
Definition recent (l : list GameEvent) : list GameEvent :=
  drop (length l - _max_history) l.

(** The sort key: [ref().priority if ref() else -999]. *)
Definition sort_key (l : EventListener) : Z :=
  if alive l then priority l else (-999)%Z.

(** [list.sort(key=..., reverse=True)]: stable, highest key first. *)
Fixpoint insert_by_priority (x : EventListener) (l : list EventListener)
    : list EventListener :=
  match l with
  | [] => [x]
  | y :: rest =>
      if (sort_key y <? sort_key x)%Z then x :: l
      else y :: insert_by_priority x rest
  end.

Definition sort_by_priority (l : list EventListener) : list EventListener :=
  fold_left (fun acc x => insert_by_priority x acc) l [].

Definition subscribe (event_type : EventType) (listener : EventListener)
    (em : EventManager) : EventManager :=
  mkEventManager
    (<[event_type :=
         sort_by_priority (default [] (_listeners em !! event_type) ++ [listener])]>
       (_listeners em))
    (_global_listeners em) (_event_queue em) (_processing em) (_event_history em)
    (dispatched em) (queued em).

Definition subscribe_global (listener : EventListener) (em : EventManager)
    : EventManager :=
  set_global_listeners (sort_by_priority (_global_listeners em ++ [listener])) em.

Definition clear_queue (em : EventManager) : EventManager := set_queue [] em.

(** The calls a handler can make reach back into the manager, so the
    dispatch loops are written over the two entry points they call. *)
Section Dispatch.

Variable dispatch : GameEvent -> EventManager -> option EventManager.
Variable drain : EventManager -> option EventManager.

(** [emit]: [now] is the reading of [time.time()] the event is stamped
    with. *)
Definition emit_with (event_type : EventType) (data : option (gmap string string))
    (source : option string) (immediate : bool) (now : Q) (em : EventManager)
    : option EventManager :=
  let event := mkGameEvent event_type (default ∅ data) now source in
  if immediate then dispatch event em else Some (enqueue event em).

Definition perform (a : Action) (em : EventManager) : option EventManager :=
  match a with
  | Emit event_type data source immediate now =>
      emit_with event_type data source immediate now em
  | ProcessEvents => drain em
  end.

Fixpoint perform_all (acts : list Action) (em : EventManager) : option EventManager :=
  match acts with
  | [] => Some em
  | a :: rest =>
      match perform a em with
      | Some em' => perform_all rest em'
      | None => None
      end
  end.

(** One of the two [for] loops of [_process_event] over a copy of a
    listener list; the result tells whether a handler consumed the
    event.  A handler that raises is passed over. *)
Fixpoint notify (refs : list EventListener) (event : GameEvent) (em : EventManager)
    : option (bool * EventManager) :=
  match refs with
  | [] => Some (false, em)
  | listener :: rest =>
      if negb (alive listener) then notify rest event em
      else if enabled listener then
        let reaction := handle_event listener event in
        match perform_all (actions reaction) em with
        | None => None
        | Some em' =>
            match outcome reaction with
            | Returns true => Some (true, em')
            | Returns false | Raises => notify rest event em'
            end
        end
      else notify rest event em
  end.

End Dispatch.

(** [_process_event], [process_events] and the [while] loop of the
    latter.  Handlers may emit without end, so the three take fuel:
    [None] means the fuel ran out. *)
Fixpoint _process_event (fuel : nat) (event : GameEvent) (em : EventManager)
    : option EventManager :=
  match fuel with
  | O => None
  | S fuel =>
      let em := begin_dispatch event em in
      match notify (_process_event fuel) (process_events fuel)
              (_global_listeners em) event em with
      | None => None
      | Some (true, em) => Some em
      | Some (false, em) =>
          match _listeners em !! event_type event with
          | None => Some em
          | Some refs =>
              match notify (_process_event fuel) (process_events fuel)
                      refs event em with
              | None => None
              | Some (_, em) => Some em
              end
          end
      end
  end
with process_events (fuel : nat) (em : EventManager) : option EventManager :=
  match fuel with
  | O => None
  | S fuel =>
      if _processing em then Some em
      else
        match drain_queue fuel (set_processing true em) with
        | None => None
        | Some em => Some (set_processing false em)
        end
  end
with drain_queue (fuel : nat) (em : EventManager) : option EventManager :=
  match fuel with
  | O => None
  | S fuel =>
      match _event_queue em with
      | [] => Some em
      | event :: rest =>
          match _process_event fuel event (set_queue rest em) with
          | None => None
          | Some em => drain_queue fuel em
          end
      end
  end.

Definition emit (fuel : nat) (event_type : EventType)
    (data : option (gmap string string)) (source : option string)
    (immediate : bool) (now : Q) (em : EventManager) : option EventManager :=
  emit_with (_process_event fuel) event_type data source immediate now em.

Definition emit_immediate (fuel : nat) (event_type : EventType)
    (data : option (gmap string string)) (source : option string) (now : Q)
    (em : EventManager) : option EventManager :=
  emit fuel event_type data source true now em.

(** *** The rest of the event manager *)

(** The test of the two [unsubscribe] methods: the reference has its
    object, and the object is not [listener]. *)
Definition keeps (listener : EventListener) (ref : EventListener) : bool :=
  alive ref && negb (Nat.eqb (listener_id ref) (listener_id listener)).

Definition unsubscribe (event_type : EventType) (listener : EventListener)
    (em : EventManager) : EventManager :=
  mkEventManager
    (<[event_type :=
         List.filter (keeps listener) (default [] (_listeners em !! event_type))]>
       (_listeners em))
    (_global_listeners em) (_event_queue em) (_processing em) (_event_history em)
    (dispatched em) (queued em).

Definition unsubscribe_global (listener : EventListener) (em : EventManager)
    : EventManager :=
  set_global_listeners (List.filter (keeps listener) (_global_listeners em)) em.

(** The Python slice [l[-limit:]]. *)
Definition last_slice {A} (limit : Z) (l : list A) : list A :=
  if (limit =? 0)%Z then l
  else if (0 <? limit)%Z then drop (length l - Z.to_nat limit) l
  else drop (Z.to_nat (- limit)) l.

Definition get_event_history (event_type : option EventType) (limit : Z)
    (em : EventManager) : list GameEvent :=
  match event_type with
  | None => last_slice limit (_event_history em)
  | Some t =>
      last_slice limit
        (List.filter (fun e => bool_decide (Events.event_type e = t))
           (_event_history em))
  end.

(** The listeners of a kind, as a lookup of the [defaultdict] gives
    them. *)
Definition listeners_of (event_type : EventType) (em : EventManager)
    : list EventListener :=
  default [] (_listeners em !! event_type).

Definition get_listener_count (event_type : EventType) (em : EventManager) : nat :=
  length (List.filter alive (listeners_of event_type em)).

Definition get_global_listener_count (em : EventManager) : nat :=
  length (List.filter alive (_global_listeners em)).

(** A listener list in the order the sort leaves: no entry has a
    larger key than one before it. *)
Fixpoint descending (l : list EventListener) : Prop :=
  match l with
  | [] => True
  | x :: rest =>
      Forall (fun y => (sort_key y <= sort_key x)%Z) rest /\ descending rest
  end.







(** Handlers that call nothing back into the manager. *)
Definition calls_nothing (l : EventListener) : Prop :=
  forall ev, actions (handle_event l ev) = [].

Definition quiet_manager (em : EventManager) : Prop :=
  Forall calls_nothing (_global_listeners em) /\
  forall k refs, _listeners em !! k = Some refs -> Forall calls_nothing refs.

(** A manager for the examples: one handler of [QUEST_STARTED], which
    emits [QUEST_COMPLETED] without [immediate], calls [process_events]
    and does not consume; [QUEST_STARTED] is in the queue. *)
Definition chatty : EventListener :=
  mkListener 0 0 true true
    (fun ev =>
       match event_type ev with
       | QUEST_STARTED =>
           mkReaction [Emit QUEST_COMPLETED None None false 2; ProcessEvents]
             (Returns false)
       | _ => mkReaction [] (Returns false)
       end).

Definition quest_started : GameEvent := mkGameEvent QUEST_STARTED ∅ 1 None.
Definition quest_completed : GameEvent := mkGameEvent QUEST_COMPLETED ∅ 2 None.

Definition chatty_manager : EventManager :=
  enqueue quest_started (subscribe QUEST_STARTED chatty EventManager_init).

(** [chatty_manager] after a call of [process_events]. *)
Definition chatty_drained : EventManager :=
  mkEventManager (_listeners chatty_manager) [] [] false
    [quest_started; quest_completed] [quest_started; quest_completed]
    [quest_started; quest_completed].

(** [chatty_manager] after the immediate dispatch of another
    [QUEST_STARTED]: its handler calls [process_events], which drains
    the queue. *)
Definition chatty_dispatched : EventManager :=
  mkEventManager (_listeners chatty_manager) [] [] false
    [quest_started; quest_started; quest_completed; quest_completed]
    [quest_started; quest_started; quest_completed; quest_completed]
    [quest_started; quest_completed; quest_completed].




(** A global listener that consumes every event and calls nothing. *)
Definition censor : EventListener :=
  mkListener 1 10 true true (fun _ => mkReaction [] (Returns true)).

(** A listener of priority 5 that calls nothing and does not consume. *)
Definition herald : EventListener :=
  mkListener 3 5 true true (fun _ => mkReaction [] (Returns false)).

(** A manager with two listeners of [QUEST_STARTED]: [censor], of
    priority 10, before [chatty], of priority 0. *)
Definition guarded_manager : EventManager :=
  subscribe QUEST_STARTED chatty (subscribe QUEST_STARTED censor EventManager_init).

(** [n] events published one after the other with [emit_immediate],
    told apart by their timestamps 1, ..., [n]. *)
Fixpoint emit_sequence (n : nat) (em : EventManager) : option EventManager :=
  match n with
  | O => Some em
  | S k =>
      match emit_sequence k em with
      | Some em' =>
          emit_immediate 1 PLAYER_MOVED None None (inject_Z (Z.of_nat (S k))) em'
      | None => None
      end
  end.

(** *** What every run of the dispatch loops preserves *)

(** A relation between the manager before and after that holds across
    the elementary steps holds across [_process_event],
    [process_events] and the drain loop, whatever the handlers do. *)
Section Invariance.

Variable R : EventManager -> EventManager -> Prop.

Hypothesis R_refl : forall em, R em em.
Hypothesis R_trans : forall a b c, R a b -> R b c -> R a c.
Hypothesis R_begin : forall ev em, R em (begin_dispatch ev em).
Hypothesis R_enqueue : forall ev em, R em (enqueue ev em).
Hypothesis R_pop : forall ev q em,
  _event_queue em = ev :: q -> R em (begin_dispatch ev (set_queue q em)).
Hypothesis R_drain : forall em em',
  _processing em = false ->
  R (set_processing true em) em' -> R em (set_processing false em').

Section Loops.

Variable dispatch : GameEvent -> EventManager -> option EventManager.
Variable drain : EventManager -> option EventManager.

Hypothesis dispatch_R : forall ev em em', dispatch ev em = Some em' -> R em em'.
Hypothesis drain_R : forall em em', drain em = Some em' -> R em em'.

Lemma perform_R a em em' : perform dispatch drain a em = Some em' -> R em em'.
Proof.
  destruct a as [et d src imm now|]; simpl; [|apply drain_R].
  unfold emit_with. destruct imm; [apply dispatch_R|].
  intros [= <-]. apply R_enqueue.
Qed.

Lemma perform_all_R acts em em' :
  perform_all dispatch drain acts em = Some em' -> R em em'.
Proof.
  revert em. induction acts as [|a rest IH]; intros em; simpl.
  - intros [= <-]. apply R_refl.
  - destruct (perform dispatch drain a em) as [em1|] eqn:Hone; [|discriminate].
    intros Hrest. eapply R_trans; [eapply perform_R; exact Hone|].
    apply IH. exact Hrest.
Qed.

Lemma notify_R refs ev em b em' :
  notify dispatch drain refs ev em = Some (b, em') -> R em em'.
Proof.
  revert em. induction refs as [|l rest IH]; intros em; simpl.
  - intros [= _ <-]. apply R_refl.
  - destruct (alive l); simpl; [|apply IH].
    destruct (enabled l); [|apply IH].
    destruct (perform_all dispatch drain (actions (handle_event l ev)) em)
      as [em1|] eqn:Hacts; [|discriminate].
    apply perform_all_R in Hacts.
    destruct (outcome (handle_event l ev)) as [[|]|].
    + intros [= _ <-]. exact Hacts.
    + intros Hrest. eapply R_trans; [exact Hacts|]. apply IH. exact Hrest.
    + intros Hrest. eapply R_trans; [exact Hacts|]. apply IH. exact Hrest.
Qed.

End Loops.

Lemma run_R (fuel : nat) :
  (forall ev em em',
     _process_event fuel ev em = Some em' -> R (begin_dispatch ev em) em') /\
  (forall em em', process_events fuel em = Some em' -> R em em') /\
  (forall em em', drain_queue fuel em = Some em' -> R em em').
Proof.
  induction fuel as [|fuel (IHev & IHall & IHloop)].
  - repeat split; intros; discriminate.
  - assert (forall ev em em', _process_event fuel ev em = Some em' -> R em em')
      as IHev'.
    { intros ev em em' H. eapply R_trans; [apply R_begin|]. apply IHev. exact H. }
    repeat split.
    + intros ev em em'. simpl.
      destruct (notify _ _ (_global_listeners _) ev (begin_dispatch ev em))
        as [[b em1]|] eqn:Hglobal; [|discriminate].
      apply (notify_R _ _ IHev' IHall) in Hglobal.
      destruct b; [intros [= <-]; exact Hglobal|].
      destruct (_listeners em1 !! event_type ev) as [refs|];
        [|intros [= <-]; exact Hglobal].
      destruct (notify _ _ refs ev em1) as [[b em2]|] eqn:Hkind; [|discriminate].
      apply (notify_R _ _ IHev' IHall) in Hkind.
      intros [= <-]. eapply R_trans; eassumption.
    + intros em em'. simpl.
      destruct (_processing em) eqn:Hflag; [intros [= <-]; apply R_refl|].
      destruct (drain_queue fuel (set_processing true em)) as [em1|] eqn:Hloop;
        [|discriminate].
      intros [= <-]. apply R_drain; [exact Hflag|]. apply IHloop. exact Hloop.
    + intros em em'. simpl.
      destruct (_event_queue em) as [|ev rest] eqn:Hq; [intros [= <-]; apply R_refl|].
      destruct (_process_event fuel ev (set_queue rest em)) as [em1|] eqn:Hev;
        [|discriminate].
      intros Hloop. eapply R_trans; [apply (R_pop ev rest em Hq)|].
      eapply R_trans; [apply IHev; exact Hev|]. apply IHloop. exact Hloop.
Qed.

End Invariance.


(** *** Returning *)

(** A handler may emit at every call and keep the loops running for
    ever, which is why they take fuel.  When the handlers call nothing
    back, a dispatch returns with any fuel, and a drain with fuel for
    one pass per queued event. *)
Lemma notify_quiet dispatch drain refs ev em :
  Forall calls_nothing refs ->
  exists b, notify dispatch drain refs ev em = Some (b, em).
Proof.
  induction 1 as [|l rest Hl _ IH]; simpl; [exists false; reflexivity|].
  destruct (alive l); simpl; [|exact IH].
  destruct (enabled l); [|exact IH].
  rewrite (Hl ev). simpl.
  destruct (outcome (handle_event l ev)) as [[|]|]; [exists true; reflexivity| |];
    exact IH.
Qed.

Lemma process_event_quiet fuel ev em :
  quiet_manager em ->
  _process_event (S fuel) ev em = Some (begin_dispatch ev em).
Proof.
  intros [Hglobal Hkind]. cbn [_process_event]. cbv zeta.
  destruct (notify_quiet (_process_event fuel) (process_events fuel)
              (_global_listeners (begin_dispatch ev em)) ev (begin_dispatch ev em)
              Hglobal) as [b ->].
  destruct b; [reflexivity|].
  destruct (_listeners (begin_dispatch ev em) !! event_type ev) as [refs|] eqn:Hrefs;
    [|reflexivity].
  destruct (notify_quiet (_process_event fuel) (process_events fuel)
              refs ev (begin_dispatch ev em) (Hkind _ _ Hrefs)) as [b' ->].
  reflexivity.
Qed.

Lemma drain_queue_quiet extra em :
  quiet_manager em ->
  exists em', drain_queue (S (length (_event_queue em)) + extra) em = Some em'.
Proof.
  remember (length (_event_queue em)) as n eqn:Hn.
  revert em Hn. induction n as [|n IH]; intros em Hn Hq.
  - destruct (_event_queue em) eqn:Hqueue; [|discriminate].
    exists em. simpl. rewrite Hqueue. reflexivity.
  - destruct (_event_queue em) as [|ev rest] eqn:Hqueue; [discriminate|].
    injection Hn as Hn.
    change (S (S n) + extra)%nat with (S (S n + extra)).
    cbn [drain_queue]. rewrite Hqueue.
    change (S n + extra)%nat with (S (n + extra)).
    rewrite process_event_quiet by exact Hq.
    apply (IH (begin_dispatch ev (set_queue rest em))); [exact Hn|exact Hq].
Qed.

Lemma process_events_quiet em :
  quiet_manager em ->
  exists em', process_events (S (S (length (_event_queue em)))) em = Some em'.
Proof.
  intros Hq. cbn [process_events]. destruct (_processing em); [eexists; reflexivity|].
  destruct (drain_queue_quiet 0 (set_processing true em) Hq) as [em' Hem'].
  rewrite Nat.add_0_r in Hem'.
  change (_event_queue (set_processing true em)) with (_event_queue em) in Hem'.
  rewrite Hem'. eexists. reflexivity.
Qed.


(** *** The history window *)

Lemma recent_bounded l : (length (recent l) <= _max_history)%nat.
Proof. unfold recent. rewrite length_drop. lia. Qed.

Lemma recent_short l : (length l <= _max_history)%nat -> recent l = l.
Proof.
  intros Hle. unfold recent.
  replace (length l - _max_history)%nat with 0%nat by lia. reflexivity.
Qed.

Lemma recent_app_recent a b : recent (recent a ++ b) = recent (a ++ b).
Proof.
  destruct (Nat.le_gt_cases (length a) _max_history) as [Hle|Hgt].
  - rewrite (recent_short a Hle). reflexivity.
  - unfold recent at 1 3. rewrite !length_app.
    assert (length (recent a) = _max_history) as ->.
    { unfold recent. rewrite length_drop. lia. }
    unfold recent.
    replace (_max_history + length b - _max_history)%nat with (length b) by lia.
    replace (length a + length b - _max_history)%nat
      with ((length a - _max_history) + length b)%nat by lia.
    rewrite <- drop_drop. f_equal.
    rewrite drop_app_le by lia. reflexivity.
Qed.

Lemma tail_drop (l : list GameEvent) : tail l = drop 1 l.
Proof. destruct l; reflexivity. Qed.

(** The append-and-trim of [_process_event] keeps the window. *)
Lemma add_to_history_recent ev em d :
  _event_history em = recent d ->
  _event_history (add_to_history ev em) = recent (d ++ [ev]).
Proof.
  intros Hh. unfold add_to_history. simpl. rewrite Hh.
  rewrite <- recent_app_recent.
  pose proof (recent_bounded d) as Hb.
  destruct (Nat.ltb_spec _max_history (length (recent d ++ [ev]))) as [Hover|Hfits].
  - rewrite tail_drop. unfold recent at 2. f_equal.
    rewrite length_app in *. simpl in *. lia.
  - symmetry. apply recent_short. exact Hfits.
Qed.

(** The record of dispatched events only grows. *)
Lemma dispatched_grows fuel :
  (forall ev em em',
     _process_event fuel ev em = Some em' ->
     exists d, dispatched em' = dispatched (begin_dispatch ev em) ++ d) /\
  (forall em em', process_events fuel em = Some em' ->
     exists d, dispatched em' = dispatched em ++ d) /\
  (forall em em', drain_queue fuel em = Some em' ->
     exists d, dispatched em' = dispatched em ++ d).
Proof.
  apply (run_R (fun em em' => exists d, dispatched em' = dispatched em ++ d)).
  - intros em. exists []. rewrite app_nil_r. reflexivity.
  - intros a b c [d1 H1] [d2 H2]. exists (d1 ++ d2). rewrite H2, H1, app_assoc.
    reflexivity.
  - intros ev em. exists [ev]. reflexivity.
  - intros ev em. exists []. rewrite app_nil_r. reflexivity.
  - intros ev q em _. exists [ev]. reflexivity.
  - intros em em' _ [d H]. exists d. exact H.
Qed.

(** The history is the window of the record, at every point of a run. *)
Lemma history_window fuel :
  (forall ev em em',
     _process_event fuel ev em = Some em' ->
     _event_history (begin_dispatch ev em) = recent (dispatched (begin_dispatch ev em)) ->
     _event_history em' = recent (dispatched em')) /\
  (forall em em', process_events fuel em = Some em' ->
     _event_history em = recent (dispatched em) ->
     _event_history em' = recent (dispatched em')) /\
  (forall em em', drain_queue fuel em = Some em' ->
     _event_history em = recent (dispatched em) ->
     _event_history em' = recent (dispatched em')).
Proof.
  apply (run_R (fun em em' =>
    _event_history em = recent (dispatched em) ->
    _event_history em' = recent (dispatched em'))).
  - tauto.
  - tauto.
  - intros ev em H. apply (add_to_history_recent ev (note_dispatched ev em)). exact H.
  - tauto.
  - intros ev q em _ H.
    apply (add_to_history_recent ev (note_dispatched ev (set_queue q em))). exact H.
  - tauto.
Qed.

(** Publishing 1001 events at once, with no listener: the history
    holds 1000 of them, the second to the last. *)
Example thousand_and_one_events :
  option_map (fun em => (length (_event_history em),
                         timestamp <$> head (_event_history em),
                         timestamp <$> last (_event_history em),
                         length (dispatched em)))
    (emit_sequence 1001 EventManager_init)
  = Some (1000%nat, Some (inject_Z 2), Some (inject_Z 1001), 1001%nat).
Proof. vm_compute. reflexivity. Qed.

(** C8.  Every event [_process_event] is called with, from an immediate
    [emit] or from the drain of the queue, goes on record and at the end
    of the history.  The history is at every time the last 1000 events
    dispatched, in the order of their dispatch: it never holds more
    than 1000 entries, and when it is full the append of a new event
    drops the oldest entry. *)
Theorem history_is_last_thousand_dispatched
    (fuel : nat) (ev : GameEvent) (em em' : EventManager) :
  _event_history em = recent (dispatched em) ->
  _process_event fuel ev em = Some em' ->
  (exists later, dispatched em' = dispatched em ++ ev :: later) /\
  _event_history em' = recent (dispatched em') /\
  (length (_event_history em') <= 1000)%nat /\
  last (_event_history (begin_dispatch ev em)) = Some ev /\
  (length (_event_history em) = 1000%nat ->
   _event_history (begin_dispatch ev em) = tail (_event_history em) ++ [ev]).
Proof.
  intros Hinv Hrun.
  assert (_event_history (begin_dispatch ev em)
          = recent (dispatched (begin_dispatch ev em))) as Hstep.
  { apply (add_to_history_recent ev (note_dispatched ev em)). exact Hinv. }
  assert (_event_history em' = recent (dispatched em')) as Hinv'.
  { eapply (proj1 (history_window fuel)); eassumption. }
  split; [|split; [exact Hinv'|split; [|split]]].
  - destruct (proj1 (dispatched_grows fuel) ev em em' Hrun) as [d Hd].
    exists d. rewrite Hd. simpl. rewrite <- app_assoc. reflexivity.
  - rewrite Hinv'. apply recent_bounded.
  - unfold begin_dispatch, add_to_history. simpl.
    destruct (Nat.ltb_spec _max_history (length (_event_history em ++ [ev])))
      as [Hover|_]; [|apply last_snoc].
    destruct (_event_history em) as [|x h]; simpl; [|apply last_snoc].
    simpl in Hover. unfold _max_history in Hover. lia.
  - intros Hfull. unfold begin_dispatch, add_to_history. simpl.
    rewrite length_app, Hfull. simpl.
    destruct (_event_history em); [discriminate|reflexivity].
Qed.

Lemma chatty_dispatch_returns :
  _process_event 10 quest_started chatty_manager = Some chatty_dispatched.
Proof. vm_compute. reflexivity. Qed.

Lemma history_is_last_thousand_dispatched_witness :
  _event_history chatty_dispatched = recent (dispatched chatty_dispatched) /\
  (length (_event_history chatty_dispatched) <= 1000)%nat.
Proof.
  pose proof (history_is_last_thousand_dispatched 10 quest_started chatty_manager
                chatty_dispatched eq_refl chatty_dispatch_returns) as H.
  split; [exact (proj1 (proj2 H))|exact (proj1 (proj2 (proj2 H)))].
Defined.

(** *** Draining the queue *)


(** The record of queued events only grows. *)
Lemma queued_grows fuel :
  (forall ev em em',
     _process_event fuel ev em = Some em' ->
     exists d, queued em' = queued (begin_dispatch ev em) ++ d) /\
  (forall em em', process_events fuel em = Some em' ->
     exists d, queued em' = queued em ++ d) /\
  (forall em em', drain_queue fuel em = Some em' ->
     exists d, queued em' = queued em ++ d).
Proof.
  apply (run_R (fun em em' => exists d, queued em' = queued em ++ d)).
  - intros em. exists []. rewrite app_nil_r. reflexivity.
  - intros a b c [d1 H1] [d2 H2]. exists (d1 ++ d2). rewrite H2, H1, app_assoc.
    reflexivity.
  - intros ev em. exists []. rewrite app_nil_r. reflexivity.
  - intros ev em. exists [ev]. reflexivity.
  - intros ev q em _. exists []. rewrite app_nil_r. reflexivity.
  - intros em em' _ [d H]. exists d. exact H.
Qed.











Lemma chatty_drain_returns : process_events 5 chatty_manager = Some chatty_drained.
Proof. vm_compute. reflexivity. Qed.




(** *** Subscriptions *)

Lemma sort_snoc l x :
  sort_by_priority (l ++ [x]) = insert_by_priority x (sort_by_priority l).
Proof. unfold sort_by_priority. rewrite fold_left_app. reflexivity. Qed.

Lemma insert_last x l :
  Forall (fun y => (sort_key x <= sort_key y)%Z) l ->
  insert_by_priority x l = l ++ [x].
Proof.
  induction 1 as [|y rest Hy _ IH]; simpl; [reflexivity|].
  destruct (Z.ltb_spec (sort_key y) (sort_key x)); [lia|]. rewrite IH. reflexivity.
Qed.

Lemma descending_snoc l y :
  descending (l ++ [y]) ->
  descending l /\ Forall (fun x => (sort_key y <= sort_key x)%Z) l.
Proof.
  induction l as [|x rest IH]; simpl; [split; [exact I|constructor]|].
  intros [Hall Hrest]. destruct (IH Hrest) as [Hd Hy].
  apply Forall_app in Hall. destruct Hall as [Hall Hlast].
  split; [split; assumption|]. constructor; [|exact Hy].
  apply Forall_inv in Hlast. exact Hlast.
Qed.

(** The sort leaves a list that is in order as it is. *)
Lemma sort_descending l : descending l -> sort_by_priority l = l.
Proof.
  induction l as [|y l IH] using rev_ind; [reflexivity|].
  intros Hd. destruct (descending_snoc l y Hd) as [Hl Hy].
  rewrite sort_snoc, IH by exact Hl. apply insert_last. exact Hy.
Qed.

(** Where the sort puts a new entry: behind the entries whose key is
    at least its own, before the entries with a smaller key. *)
Lemma insert_split x l :
  descending l ->
  exists before after,
    l = before ++ after /\
    insert_by_priority x l = before ++ x :: after /\
    Forall (fun y => (sort_key x <= sort_key y)%Z) before /\
    Forall (fun y => (sort_key y < sort_key x)%Z) after /\
    descending (before ++ x :: after).
Proof.
  induction l as [|y rest IH]; simpl.
  - intros _. exists [], []. repeat split; constructor.
  - intros [Hall Hrest].
    destruct (Z.ltb_spec (sort_key y) (sort_key x)) as [Hlt|Hge].
    + assert (Forall (fun z => (sort_key z < sort_key x)%Z) rest) as Hsmall.
      { eapply Forall_impl; [exact Hall|]. simpl. intros z Hz. lia. }
      exists [], (y :: rest). simpl.
      split; [reflexivity|]. split; [reflexivity|]. split; [constructor|].
      split; [constructor; assumption|].
      split; [|split; assumption].
      constructor; [lia|]. eapply Forall_impl; [exact Hsmall|]. simpl. intros z Hz. lia.
    + destruct (IH Hrest) as (before & after & Hl & Hins & Hb & Ha & Hd).
      exists (y :: before), after. rewrite Hins, Hl. simpl.
      split; [reflexivity|]. split; [reflexivity|].
      split; [constructor; assumption|]. split; [exact Ha|].
      split; [|exact Hd].
      rewrite Hl in Hall. apply Forall_app in Hall. destruct Hall as [H1 H2].
      apply Forall_app. split; [exact H1|]. constructor; [exact Hge|exact H2].
Qed.

Lemma listeners_of_subscribe t x em :
  listeners_of t (subscribe t x em) = sort_by_priority (listeners_of t em ++ [x]).
Proof. unfold listeners_of, subscribe. simpl. rewrite lookup_insert_eq. reflexivity. Qed.

Lemma subscribe_split t x em :
  descending (listeners_of t em) ->
  exists before after,
    listeners_of t em = before ++ after /\
    listeners_of t (subscribe t x em) = before ++ x :: after /\
    Forall (fun y => (sort_key x <= sort_key y)%Z) before /\
    Forall (fun y => (sort_key y < sort_key x)%Z) after /\
    descending (listeners_of t (subscribe t x em)).
Proof.
  intros Hd. rewrite listeners_of_subscribe, sort_snoc, sort_descending by exact Hd.
  destruct (insert_split x _ Hd) as (before & after & H1 & H2 & H3 & H4 & H5).
  exists before, after. rewrite H2. repeat split; assumption.
Qed.

(** The two listeners of [guarded_manager] are in order. *)
Lemma guarded_descending : descending (listeners_of QUEST_STARTED guarded_manager).
Proof.
  change (descending [censor; chatty]). simpl. repeat split; repeat constructor.
  vm_compute. discriminate.
Qed.

(** X18.  [subscribe] keeps the listeners of a kind ordered by
    priority, highest first, and by registration among equals: the
    new listener comes behind every listener whose priority is at
    least its own and before every listener of lower priority; the
    listeners that were there keep their places among themselves, and
    the other kinds are not touched. *)
Theorem subscribe_places_by_priority
    (t : EventType) (x : EventListener) (em : EventManager) :
  descending (listeners_of t em) ->
  (exists before after,
     listeners_of t em = before ++ after /\
     listeners_of t (subscribe t x em) = before ++ x :: after /\
     Forall (fun y => (sort_key x <= sort_key y)%Z) before /\
     Forall (fun y => (sort_key y < sort_key x)%Z) after /\
     descending (listeners_of t (subscribe t x em))) /\
  forall t', t' <> t -> listeners_of t' (subscribe t x em) = listeners_of t' em.
Proof.
  intros Hd. split; [apply subscribe_split; exact Hd|].
  intros t' Hne. unfold listeners_of, subscribe. simpl.
  rewrite lookup_insert_ne by congruence. reflexivity.
Qed.

Lemma subscribe_places_by_priority_witness :
  listeners_of QUEST_STARTED guarded_manager = [censor; chatty] /\
  listeners_of QUEST_STARTED (subscribe QUEST_STARTED herald guarded_manager)
  = [censor; herald; chatty].
Proof.
  split; [reflexivity|].
  destruct (proj1 (subscribe_places_by_priority QUEST_STARTED herald guarded_manager
                     guarded_descending))
    as (before & after & Hl & Hnew & Hb & Ha & _).
  change ([censor; chatty] = before ++ after) in Hl.
  destruct before as [|b1 [|b2 [|b3 rest]]]; simpl in Hl.
  - subst after. apply List.Forall_inv in Ha. vm_compute in Ha. discriminate.
  - injection Hl as <- <-. exact Hnew.
  - injection Hl as <- <- <-. apply List.Forall_inv_tail, List.Forall_inv in Hb.
    exfalso. apply Hb. reflexivity.
  - discriminate.
Defined.

Lemma listeners_of_unsubscribe t x em :
  listeners_of t (unsubscribe t x em) = List.filter (keeps x) (listeners_of t em).
Proof.
  unfold listeners_of at 1. unfold unsubscribe. simpl.
  rewrite lookup_insert_eq. reflexivity.
Qed.

(** X19.  Unsubscribing a listener right after subscribing it leaves
    the listeners of the kind as they were, when these were in order,
    all alive, and none of them the listener itself. *)
Theorem unsubscribe_undoes_subscribe
    (t : EventType) (x : EventListener) (em : EventManager) :
  descending (listeners_of t em) ->
  Forall (fun y => alive y = true /\ listener_id y <> listener_id x)
    (listeners_of t em) ->
  listeners_of t (unsubscribe t x (subscribe t x em)) = listeners_of t em.
Proof.
  intros Hd Hall.
  destruct (subscribe_split t x em Hd) as (before & after & Hl & Hnew & _).
  rewrite listeners_of_unsubscribe, Hnew, Hl, List.filter_app. simpl.
  assert (keeps x x = false) as ->.
  { unfold keeps. rewrite Nat.eqb_refl. apply andb_false_r. }
  rewrite Hl in Hall. apply Forall_app in Hall. destruct Hall as [Hb Ha].
  assert (forall l, Forall (fun y => alive y = true /\ listener_id y <> listener_id x) l ->
                    List.filter (keeps x) l = l) as Hkeep.
  { induction 1 as [|y rest [Hy1 Hy2] _ IH]; simpl; [reflexivity|].
    unfold keeps at 1. rewrite Hy1. apply Nat.eqb_neq in Hy2. rewrite Hy2. simpl.
    rewrite IH. reflexivity. }
  rewrite (Hkeep _ Hb), (Hkeep _ Ha). reflexivity.
Qed.

Lemma unsubscribe_undoes_subscribe_witness :
  listeners_of QUEST_STARTED
    (unsubscribe QUEST_STARTED herald (subscribe QUEST_STARTED herald guarded_manager))
  = [censor; chatty].
Proof.
  refine (unsubscribe_undoes_subscribe QUEST_STARTED herald guarded_manager
            guarded_descending _).
  change (Forall (fun y => alive y = true /\ listener_id y <> listener_id herald)
            [censor; chatty]).
  repeat constructor; discriminate.
Defined.

(** *** Reading the history *)

(** X20.  [get_event_history] with a positive limit returns the latest
    entries of the history, oldest first, at most [limit] of them and
    all of them when there are fewer.  With the limit 0 the slice
    [[-0:]] is the whole list: the complete history is returned, not
    an empty list. *)
Theorem get_event_history_limit (limit : Z) (em : EventManager) :
  get_event_history None 0 em = _event_history em /\
  ((0 < limit)%Z ->
   length (get_event_history None limit em)
     = Nat.min (Z.to_nat limit) (length (_event_history em)) /\
   exists older, _event_history em = older ++ get_event_history None limit em).
Proof.
  split; [reflexivity|]. intros Hpos. unfold get_event_history, last_slice.
  destruct (Z.eqb_spec limit 0); [lia|].
  destruct (Z.ltb_spec 0 limit); [|lia].
  split.
  - rewrite length_drop. lia.
  - exists (take (length (_event_history em) - Z.to_nat limit) (_event_history em)).
    symmetry. apply take_drop.
Qed.

(** *** The order of dispatch *)

Lemma drain_queue_fifo extra em :
  quiet_manager em ->
  exists em',
    drain_queue (S (length (_event_queue em)) + extra) em = Some em' /\
    dispatched em' = dispatched em ++ _event_queue em /\
    _event_queue em' = [] /\ queued em' = queued em /\
    _processing em' = _processing em.
Proof.
  remember (length (_event_queue em)) as n eqn:Hn.
  revert em Hn. induction n as [|n IH]; intros em Hn Hq.
  - destruct (_event_queue em) eqn:Hqueue; [|discriminate].
    exists em. simpl. rewrite Hqueue, app_nil_r. repeat split.
  - destruct (_event_queue em) as [|ev rest] eqn:Hqueue; [discriminate|].
    injection Hn as Hn.
    change (S (S n) + extra)%nat with (S (S n + extra)).
    cbn [drain_queue]. rewrite Hqueue.
    change (S n + extra)%nat with (S (n + extra)).
    rewrite process_event_quiet by exact Hq.
    destruct (IH (begin_dispatch ev (set_queue rest em)) Hn Hq)
      as (em' & Hrun & Hd & Hempty & Hqd & Hflag).
    exists em'. split; [exact Hrun|]. simpl in Hd.
    rewrite Hd, <- app_assoc. repeat split; assumption.
Qed.

(** X21.  With handlers that call nothing back into the manager, a
    drain dispatches the queued events in the order they were queued,
    each once, and leaves the queue empty. *)
Theorem process_events_fifo (em : EventManager) :
  quiet_manager em -> _processing em = false ->
  exists em',
    process_events (S (S (length (_event_queue em)))) em = Some em' /\
    dispatched em' = dispatched em ++ _event_queue em /\
    _event_queue em' = [] /\
    _processing em' = false.
Proof.
  intros Hq Hoff. cbn [process_events]. rewrite Hoff.
  destruct (drain_queue_fifo 0 (set_processing true em) Hq)
    as (em' & Hrun & Hd & Hempty & _).
  rewrite Nat.add_0_r in Hrun.
  change (_event_queue (set_processing true em)) with (_event_queue em) in *.
  rewrite Hrun. eexists. split; [reflexivity|]. simpl. repeat split; assumption.
Qed.

Lemma process_events_fifo_witness :
  exists em',
    process_events 4
      (enqueue quest_completed (enqueue quest_started EventManager_init)) = Some em' /\
    dispatched em' = [quest_started; quest_completed].
Proof.
  destruct (process_events_fifo
              (enqueue quest_completed (enqueue quest_started EventManager_init)))
    as (em' & H1 & H2 & _).
  - split; [constructor|]. intros k refs Hk. simpl in Hk.
    rewrite lookup_empty in Hk. discriminate.
  - reflexivity.
  - exists em'. split; [exact H1|exact H2].
Defined.

(** A consuming listener ends the loop: what stands behind it in the
    list is not called. *)
Lemma notify_stops_at_consumer dispatch drain pre c post ev em :
  alive c = true -> enabled c = true ->
  outcome (handle_event c ev) = Returns true ->
  notify dispatch drain (pre ++ c :: post) ev em
  = notify dispatch drain (pre ++ [c]) ev em.
Proof.
  intros Ha He Hc. revert em.
  induction pre as [|l pre IH]; intros em; simpl.
  - rewrite Ha, He, Hc. simpl.
    destruct (perform_all dispatch drain (actions (handle_event c ev)) em);
      reflexivity.
  - destruct (alive l); simpl; [|apply IH].
    destruct (enabled l); [|apply IH].
    destruct (perform_all dispatch drain (actions (handle_event l ev)) em);
      [|reflexivity].
    destruct (outcome (handle_event l ev)) as [[|]|]; [reflexivity|apply IH..].
Qed.

Lemma notify_consumer_last dispatch drain pre c ev em b em' :
  alive c = true -> enabled c = true ->
  outcome (handle_event c ev) = Returns true ->
  notify dispatch drain (pre ++ [c]) ev em = Some (b, em') -> b = true.
Proof.
  intros Ha He Hc. revert em.
  induction pre as [|l pre IH]; intros em; simpl.
  - rewrite Ha, He, Hc. simpl.
    destruct (perform_all dispatch drain (actions (handle_event c ev)) em);
      [intros [= <- _]; reflexivity|discriminate].
  - destruct (alive l); simpl; [|apply IH].
    destruct (enabled l); [|apply IH].
    destruct (perform_all dispatch drain (actions (handle_event l ev)) em);
      [|discriminate].
    destruct (outcome (handle_event l ev)) as [[|]|];
      [intros [= <- _]; reflexivity|apply IH..].
Qed.

(** X22.  When a live, enabled global listener consumes the event, the
    dispatch is the notification of the global listeners up to that
    one: the global listeners behind it and the listeners of the
    event's kind are not called, whatever they would do. *)
Theorem global_consumer_stops_dispatch
    (fuel : nat) (ev : GameEvent) (em : EventManager)
    (pre post : list EventListener) (c : EventListener) :
  alive c = true -> enabled c = true ->
  outcome (handle_event c ev) = Returns true ->
  _global_listeners em = pre ++ c :: post ->
  _process_event (S fuel) ev em
  = option_map snd
      (notify (_process_event fuel) (process_events fuel) (pre ++ [c]) ev
         (begin_dispatch ev em)).
Proof.
  intros Ha He Hc Hglobal. cbn [_process_event]. cbv zeta.
  change (_global_listeners (begin_dispatch ev em)) with (_global_listeners em).
  rewrite Hglobal, (notify_stops_at_consumer _ _ pre c post ev _ Ha He Hc).
  destruct (notify _ _ (pre ++ [c]) ev (begin_dispatch ev em)) as [[b em1]|] eqn:Hrun;
    [|reflexivity].
  rewrite (notify_consumer_last _ _ pre c ev _ b em1 Ha He Hc Hrun). reflexivity.
Qed.

Lemma global_consumer_stops_dispatch_witness :
  _process_event 1 quest_started (subscribe_global censor chatty_manager)
  = Some (begin_dispatch quest_started (subscribe_global censor chatty_manager)).
Proof.
  exact (global_consumer_stops_dispatch 0 quest_started
           (subscribe_global censor chatty_manager) [] [] censor
           eq_refl eq_refl eq_refl eq_refl).
Defined.

End Events.

(** ** The state manager ([state_manager.py]) *)

Module States.

Inductive StateType :=
  | SPLASH_SCREEN | MAIN_MENU | CHARACTER_CREATION | LOADING | GAMEPLAY | COMBAT
  | DIALOGUE | INVENTORY | CHARACTER_SHEET | QUEST_LOG | WORLD_MAP | SHOP
  | CRAFTING | SETTINGS | PAUSE_MENU | SAVE_LOAD | GAME_OVER | CREDITS.

#[global] Instance StateType_eq_dec : EqDecision StateType.
Proof. solve_decision. Defined.

Definition all_state_types : list StateType :=
  [SPLASH_SCREEN; MAIN_MENU; CHARACTER_CREATION; LOADING; GAMEPLAY; COMBAT;
   DIALOGUE; INVENTORY; CHARACTER_SHEET; QUEST_LOG; WORLD_MAP; SHOP;
   CRAFTING; SETTINGS; PAUSE_MENU; SAVE_LOAD; GAME_OVER; CREDITS].

(** The place of a kind in the enumeration. *)
Definition StateType_index (t : StateType) : nat :=
  match t with
  | SPLASH_SCREEN => 0 | MAIN_MENU => 1 | CHARACTER_CREATION => 2
  | LOADING => 3 | GAMEPLAY => 4 | COMBAT => 5 | DIALOGUE => 6
  | INVENTORY => 7 | CHARACTER_SHEET => 8 | QUEST_LOG => 9 | WORLD_MAP => 10
  | SHOP => 11 | CRAFTING => 12 | SETTINGS => 13 | PAUSE_MENU => 14
  | SAVE_LOAD => 15 | GAME_OVER => 16 | CREDITS => 17
  end.

#[global] Instance StateType_countable : Countable StateType.
Proof.
  refine (inj_countable StateType_index (fun n => all_state_types !! n) _).
  intros []; reflexivity.
Defined.

(** The dictionaries passed to [enter] and kept in [GameState.data]. *)
Abbreviation Data := (gmap string string).

(** A [pygame] event, as far as the placeholder states look at it. *)
Record PygameEvent := mkPygameEvent {
  type : Z;
  key : Z
}.

(** A [GameState] object.  The abstract methods are taken with the
    bodies of the base class, which the states of [game_engine.py] call
    through [super()]; [consumes] is what the state's [handle_event]
    answers, and whatever a concrete state does besides is outside the
    model. *)
Record GameState := mkGameState {
  state_type : StateType;
  active : bool;
  initialized : bool;
  data : Data;
  can_pause : bool;
  blocks_input : bool;
  overlay : bool;
  consumes : PygameEvent -> bool
}.

(** [GameState.__init__]. *)
Definition GameState_init (state_type : StateType) (consumes : PygameEvent -> bool)
    : GameState :=
  mkGameState state_type false false ∅ true false false consumes.

(** The calls the manager makes on its states, by the reference of the
    state called. *)
Inductive Call :=
  | Initialize (r : nat)
  | Cleanup (r : nat)
  | Enter (r : nat) (previous_state : option nat) (data : option Data)
  | Exit (r : nat) (next_state : option nat)
  | Pause (r : nat)
  | Resume (r : nat)
  | Update (r : nat) (delta_time : Q)
  | HandleEvent (r : nat) (event : PygameEvent).

(** The dictionary [_pending_transition], by its ['type']. *)
Inductive Transition :=
  | change (target : StateType) (data : Data)
  | push (target : StateType) (data : Data)
  | pop.

(** [objects] holds the [GameState] objects that exist; the registry,
    the stack and [current_state] refer to them.  The stack has its
    bottom first and its top last, as the Python list.  [calls] is not
    in the source: it records, in order, every call the manager makes
    on a state. *)
Record StateManager := mkStateManager {
  objects : gmap nat GameState;
  states : gmap StateType nat;
  state_stack : list nat;
  current_state : option nat;
  _pending_transition : option Transition;
  state_history : list StateType;
  calls : list Call
}.

Definition max_history : nat := 50.

(** [StateManager.__init__]. *)
Definition StateManager_init : StateManager :=
  mkStateManager ∅ ∅ [] None None [] [].

Definition set_objects (o : gmap nat GameState) (sm : StateManager) : StateManager :=
  mkStateManager o (states sm) (state_stack sm) (current_state sm)
    (_pending_transition sm) (state_history sm) (calls sm).

Definition set_states (m : gmap StateType nat) (sm : StateManager) : StateManager :=
  mkStateManager (objects sm) m (state_stack sm) (current_state sm)
    (_pending_transition sm) (state_history sm) (calls sm).

Definition set_stack (l : list nat) (c : option nat) (sm : StateManager)
    : StateManager :=
  mkStateManager (objects sm) (states sm) l c
    (_pending_transition sm) (state_history sm) (calls sm).

Definition set_pending (t : option Transition) (sm : StateManager) : StateManager :=
  mkStateManager (objects sm) (states sm) (state_stack sm) (current_state sm)
    t (state_history sm) (calls sm).

Definition set_state_history (h : list StateType) (sm : StateManager) : StateManager :=
  mkStateManager (objects sm) (states sm) (state_stack sm) (current_state sm)
    (_pending_transition sm) h (calls sm).

Definition record_call (c : Call) (sm : StateManager) : StateManager :=
  mkStateManager (objects sm) (states sm) (state_stack sm) (current_state sm)
    (_pending_transition sm) (state_history sm) (calls sm ++ [c]).

(** A field of the object behind a reference. *)
Definition field {A} (f : GameState -> A) (d : A) (r : nat) (sm : StateManager) : A :=
  match objects sm !! r with
  | Some s => f s
  | None => d
  end.

Definition is_active : nat -> StateManager -> bool := field active false.
Definition may_pause : nat -> StateManager -> bool := field can_pause false.
Definition is_blocking : nat -> StateManager -> bool := field blocks_input false.

(** A new [GameState] object, made outside the manager. *)
Definition new_state (s : GameState) (sm : StateManager) : nat * StateManager :=
  let r := fresh (dom (objects sm)) in
  (r, set_objects (<[r := s]> (objects sm)) sm).

(** *** The methods of the base class *)

Definition set_active (b : bool) (s : GameState) : GameState :=
  mkGameState (state_type s) b (initialized s) (data s) (can_pause s)
    (blocks_input s) (overlay s) (consumes s).

Definition set_initialized (s : GameState) : GameState :=
  mkGameState (state_type s) (active s) true (data s) (can_pause s)
    (blocks_input s) (overlay s) (consumes s).

(** [self.data.update(d)]: the keys of [d] win. *)
Definition update_data (d : Data) (s : GameState) : GameState :=
  mkGameState (state_type s) (active s) (initialized s) (d ∪ data s) (can_pause s)
    (blocks_input s) (overlay s) (consumes s).

(** A dictionary is true when it is there and not empty. *)
Definition truthy (d : option Data) : bool :=
  match d with
  | Some m => negb (bool_decide (m = ∅))
  | None => false
  end.

Definition enter (r : nat) (previous_state : option nat) (d : option Data)
    (sm : StateManager) : StateManager :=
  let body s :=
    let s := set_active true s in
    if truthy d then update_data (default ∅ d) s else s in
  record_call (Enter r previous_state d)
    (set_objects (alter body r (objects sm)) sm).

Definition exit (r : nat) (next_state : option nat) (sm : StateManager)
    : StateManager :=
  record_call (Exit r next_state)
    (set_objects (alter (set_active false) r (objects sm)) sm).

Definition initialize (r : nat) (sm : StateManager) : StateManager :=
  if field initialized true r sm then sm
  else record_call (Initialize r)
         (set_objects (alter set_initialized r (objects sm)) sm).

Definition cleanup (r : nat) (sm : StateManager) : StateManager :=
  record_call (Cleanup r) sm.

Definition pause (r : nat) (sm : StateManager) : StateManager :=
  record_call (Pause r) sm.

Definition resume (r : nat) (sm : StateManager) : StateManager :=
  record_call (Resume r) sm.

(** *** The manager *)

Definition register_state (r : nat) (sm : StateManager) : StateManager :=
  match objects sm !! r with
  | Some s => initialize r (set_states (<[state_type s := r]> (states sm)) sm)
  | None => sm
  end.

Definition unregister_state (state_type : StateType) (sm : StateManager)
    : StateManager :=
  match states sm !! state_type with
  | Some r => set_states (delete state_type (states sm)) (cleanup r sm)
  | None => sm
  end.

Definition _add_to_history (state_type : StateType) (sm : StateManager)
    : StateManager :=
  let h := state_history sm ++ [state_type] in
  set_state_history (if (max_history <? length h)%nat then tail h else h) sm.

(** [None] is the [KeyError] of [self.states[state_type]], raised
    before anything is changed. *)
Definition _perform_state_change (state_type : StateType) (d : option Data)
    (sm : StateManager) : option StateManager :=
  match states sm !! state_type with
  | None => None
  | Some new_state =>
      let sm :=
        match current_state sm with
        | Some c => exit c (Some new_state) sm
        | None => sm
        end in
      let sm := set_stack [new_state] (Some new_state) sm in
      let sm := enter new_state None d sm in
      Some (_add_to_history state_type sm)
  end.

Definition _perform_state_push (state_type : StateType) (d : option Data)
    (sm : StateManager) : option StateManager :=
  match states sm !! state_type with
  | None => None
  | Some new_state =>
      let previous_state := current_state sm in
      let sm :=
        match current_state sm with
        | Some c => if may_pause c sm then pause c sm else sm
        | None => sm
        end in
      let sm := set_stack (state_stack sm ++ [new_state]) (Some new_state) sm in
      let sm := enter new_state previous_state d sm in
      Some (_add_to_history state_type sm)
  end.

Definition _perform_state_pop (sm : StateManager) : StateManager :=
  if (length (state_stack sm) <=? 1)%nat then sm
  else
    match last (state_stack sm) with
    | None => sm
    | Some current =>
        let rest := removelast (state_stack sm) in
        let sm := exit current None (set_stack rest (current_state sm) sm) in
        let sm := set_stack rest (last rest) sm in
        match current_state sm with
        | Some c => resume c sm
        | None => sm
        end
    end.

(** [data or {}]. *)
Definition or_empty (d : option Data) : Data :=
  if truthy d then default ∅ d else ∅.

(** In [change_state] and [push_state] the kind was just found in the
    registry, so that the lookup of the [_perform_] method finds it. *)
Definition change_state (state_type : StateType) (d : option Data)
    (immediate : bool) (sm : StateManager) : StateManager * bool :=
  match states sm !! state_type with
  | None => (sm, false)
  | Some _ =>
      if immediate
      then (default sm (_perform_state_change state_type d sm), true)
      else (set_pending (Some (change state_type (or_empty d))) sm, true)
  end.

Definition push_state (state_type : StateType) (d : option Data)
    (immediate : bool) (sm : StateManager) : StateManager * bool :=
  match states sm !! state_type with
  | None => (sm, false)
  | Some _ =>
      if immediate
      then (default sm (_perform_state_push state_type d sm), true)
      else (set_pending (Some (push state_type (or_empty d))) sm, true)
  end.

Definition pop_state (immediate : bool) (sm : StateManager) : StateManager * bool :=
  if (length (state_stack sm) <=? 1)%nat then (sm, false)
  else if immediate then (_perform_state_pop sm, true)
  else (set_pending (Some pop) sm, true).

(** The search loop of [back_to_state]: the index of the first state
    of the kind, from the bottom. *)
Fixpoint find_index (state_type : StateType) (l : list nat) (i : nat)
    (sm : StateManager) : option nat :=
  match l with
  | [] => None
  | r :: rest =>
      if field (fun s => bool_decide (States.state_type s = state_type)) false r sm
      then Some i
      else find_index state_type rest (S i) sm
  end.

(** [while len(self.state_stack) > target_index + 1: ...], at most [n]
    passes. *)
Fixpoint pop_down_to (n : nat) (target_index : nat) (sm : StateManager)
    : StateManager :=
  match n with
  | O => sm
  | S k =>
      if (target_index + 1 <? length (state_stack sm))%nat
      then pop_down_to k target_index (fst (pop_state true sm))
      else sm
  end.

(** Each pass shortens the stack by one, so its length bounds the
    passes. *)
Definition back_to_state (state_type : StateType) (d : option Data)
    (sm : StateManager) : StateManager * bool :=
  match find_index state_type (state_stack sm) 0 sm with
  | None => (sm, false)
  | Some target_index =>
      let sm := pop_down_to (length (state_stack sm)) target_index sm in
      let sm :=
        match current_state sm with
        | Some c =>
            if truthy d
            then set_objects (alter (update_data (default ∅ d)) c (objects sm)) sm
            else sm
        | None => sm
        end in
      (sm, true)
  end.

(** The loop of [clear_stack]: [pop()] takes the last entry. *)
Fixpoint exit_all (n : nat) (sm : StateManager) : StateManager :=
  match n with
  | O => sm
  | S k =>
      match last (state_stack sm) with
      | None => sm
      | Some r =>
          exit_all k
            (exit r None (set_stack (removelast (state_stack sm)) (current_state sm) sm))
      end
  end.

Definition clear_stack (new_state : StateType) (d : option Data)
    (sm : StateManager) : StateManager * bool :=
  match states sm !! new_state with
  | None => (sm, false)
  | Some _ =>
      change_state new_state d true (exit_all (length (state_stack sm)) sm)
  end.

(** [update]: the boolean tells whether the call raised the [KeyError]
    of a transition to a kind no longer registered. *)
Definition update (delta_time : Q) (sm : StateManager) : StateManager * bool :=
  let applied :=
    match _pending_transition sm with
    | None => Some sm
    | Some transition =>
        let sm := set_pending None sm in
        match transition with
        | change target d => _perform_state_change target (Some d) sm
        | push target d => _perform_state_push target (Some d) sm
        | pop => Some (_perform_state_pop sm)
        end
    end in
  match applied with
  | None => (set_pending None sm, true)
  | Some sm =>
      match current_state sm with
      | Some c =>
          if is_active c sm then (record_call (Update c delta_time) sm, false)
          else (sm, false)
      | None => (sm, false)
      end
  end.

(** The loop of [handle_event] over [reversed(self.state_stack)]. *)
Fixpoint offer (l : list nat) (event : PygameEvent) (sm : StateManager)
    : StateManager * bool :=
  match l with
  | [] => (sm, false)
  | r :: rest =>
      if is_active r sm && negb (is_blocking r sm) then
        let sm := record_call (HandleEvent r event) sm in
        if field (fun s => consumes s event) false r sm then (sm, true)
        else offer rest event sm
      else offer rest event sm
  end.

Definition handle_event (event : PygameEvent) (sm : StateManager)
    : StateManager * bool :=
  offer (rev (state_stack sm)) event sm.

(** *** The rest of the state manager *)

Definition is_overlay : nat -> StateManager -> bool := field overlay false.

(** The state behind a reference is of the kind. *)
Definition has_kind (t : StateType) (sm : StateManager) (r : nat) : bool :=
  field (fun s => bool_decide (state_type s = t)) false r sm.

(** The first loop of [render], over the stack from the top down with
    the index [i] of the entry at hand: the index of the first state
    that is not an overlay, or the index [top] when every state is
    one. *)
Fixpoint render_start (from_top : list nat) (i top : nat) (sm : StateManager) : nat :=
  match from_top with
  | [] => top
  | r :: rest =>
      if negb (is_overlay r sm) then i else render_start rest (i - 1) top sm
  end.

(** [render]: the states whose [render] is called, in the order of the
    calls. *)
Definition render (sm : StateManager) : list nat :=
  let top := (length (state_stack sm) - 1)%nat in
  let start_index := render_start (rev (state_stack sm)) top top sm in
  List.filter (fun r => is_active r sm) (drop start_index (state_stack sm)).

(** *** What the specification says of the routing, in its own terms *)

Definition add_calls (cs : list Call) (sm : StateManager) : StateManager :=
  mkStateManager (objects sm) (states sm) (state_stack sm) (current_state sm)
    (_pending_transition sm) (state_history sm) (calls sm ++ cs).

(** The states that take input: active and not marked [blocks_input]. *)
Definition takes_input (sm : StateManager) (r : nat) : bool :=
  is_active r sm && negb (is_blocking r sm).

Definition consumed_by (event : PygameEvent) (sm : StateManager) (r : nat) : bool :=
  field (fun s => consumes s event) false r sm.

(** The states of a list up to the first that consumes the event. *)
Fixpoint up_to_consumer (event : PygameEvent) (sm : StateManager) (l : list nat)
    : list nat :=
  match l with
  | [] => []
  | r :: rest =>
      if consumed_by event sm r then [r] else r :: up_to_consumer event sm rest
  end.

(** The states that are offered the event: from the top of the stack
    down, those that take input, up to the first that consumes. *)
Definition offered (event : PygameEvent) (sm : StateManager) : list nat :=
  up_to_consumer event sm (List.filter (takes_input sm) (rev (state_stack sm))).

(** *** Sequences of operations *)

(** The operations of the manager, and the making of a state object
    that precedes its registration. *)
Inductive Op :=
  | op_new_state (s : GameState)
  | op_register_state (r : nat)
  | op_unregister_state (state_type : StateType)
  | op_change_state (state_type : StateType) (d : option Data) (immediate : bool)
  | op_push_state (state_type : StateType) (d : option Data) (immediate : bool)
  | op_pop_state (immediate : bool)
  | op_back_to_state (state_type : StateType) (d : option Data)
  | op_clear_stack (new_state : StateType) (d : option Data)
  | op_update (delta_time : Q)
  | op_handle_event (event : PygameEvent).

Definition step (op : Op) (sm : StateManager) : StateManager :=
  match op with
  | op_new_state s => snd (new_state s sm)
  | op_register_state r => register_state r sm
  | op_unregister_state t => unregister_state t sm
  | op_change_state t d immediate => fst (change_state t d immediate sm)
  | op_push_state t d immediate => fst (push_state t d immediate sm)
  | op_pop_state immediate => fst (pop_state immediate sm)
  | op_back_to_state t d => fst (back_to_state t d sm)
  | op_clear_stack t d => fst (clear_stack t d sm)
  | op_update dt => fst (update dt sm)
  | op_handle_event event => fst (handle_event event sm)
  end.

Definition run (ops : list Op) (sm : StateManager) : StateManager :=
  fold_left (fun sm op => step op sm) ops sm.

(** [current_state] is the top of the stack, or [None] on an empty
    stack. *)
Definition current_is_top (sm : StateManager) : Prop :=
  current_state sm = last (state_stack sm).

(** Every state on the stack is a value of the registry. *)
Definition stack_registered (sm : StateManager) : Prop :=
  forall r, In r (state_stack sm) -> exists t, states sm !! t = Some r.

(** An operation that takes no state of the stack out of the registry:
    it does not unregister the kind of a state that is on the stack,
    and does not register another object under such a kind. *)
Definition spares_stack (op : Op) (sm : StateManager) : Prop :=
  match op with
  | op_unregister_state t =>
      forall r, states sm !! t = Some r -> ~ In r (state_stack sm)
  | op_register_state r =>
      forall s old, objects sm !! r = Some s ->
        states sm !! state_type s = Some old ->
        old = r \/ ~ In old (state_stack sm)
  | _ => True
  end.

Fixpoint run_spares_stack (ops : list Op) (sm : StateManager) : Prop :=
  match ops with
  | [] => True
  | op :: rest => spares_stack op sm /\ run_spares_stack rest (step op sm)
  end.

(** How an operation other than a registration can leave the registry,
    the stack and [current_state]: as they were; reset to one
    registered state; with a registered state pushed; with the top
    popped; or through several such moves. *)
Inductive reshaped : StateManager -> StateManager -> Prop :=
  | reshaped_same sm sm' :
      states sm' = states sm -> state_stack sm' = state_stack sm ->
      current_state sm' = current_state sm -> reshaped sm sm'
  | reshaped_reset sm sm' t new :
      states sm' = states sm -> states sm !! t = Some new ->
      state_stack sm' = [new] -> current_state sm' = Some new -> reshaped sm sm'
  | reshaped_push sm sm' t new :
      states sm' = states sm -> states sm !! t = Some new ->
      state_stack sm' = state_stack sm ++ [new] -> current_state sm' = Some new ->
      reshaped sm sm'
  | reshaped_pop sm sm' :
      states sm' = states sm -> state_stack sm' = removelast (state_stack sm) ->
      current_state sm' = last (removelast (state_stack sm)) -> reshaped sm sm'
  | reshaped_trans sm sm1 sm2 :
      reshaped sm sm1 -> reshaped sm1 sm2 -> reshaped sm sm2.

(** *** Managers for the examples *)

Definition quiet : PygameEvent -> bool := fun _ => false.

Definition a_key : PygameEvent := mkPygameEvent 768 27.

(** Gameplay with the pause menu pushed over it; the pause menu is
    marked [blocks_input].  Gameplay is object 0, the pause menu 1, the
    main menu 2. *)
Definition paused_game : StateManager :=
  let (g, sm) := new_state (GameState_init GAMEPLAY quiet) StateManager_init in
  let (p, sm) :=
    new_state (mkGameState PAUSE_MENU false false ∅ true true false quiet) sm in
  let (m, sm) := new_state (GameState_init MAIN_MENU quiet) sm in
  let sm := register_state m (register_state p (register_state g sm)) in
  let sm := fst (change_state GAMEPLAY None true sm) in
  fst (push_state PAUSE_MENU None true sm).

(** The main menu with gameplay pushed over it and a dialogue over
    gameplay; the dialogue is an overlay.  Gameplay is object 0, the
    main menu 1, the dialogue 2. *)
Definition overlaid_game : StateManager :=
  let (g, sm) := new_state (GameState_init GAMEPLAY quiet) StateManager_init in
  let (m, sm) := new_state (GameState_init MAIN_MENU quiet) sm in
  let (dlg, sm) :=
    new_state (mkGameState DIALOGUE false false ∅ true false true quiet) sm in
  let sm := register_state dlg (register_state m (register_state g sm)) in
  let sm := fst (change_state MAIN_MENU None true sm) in
  let sm := fst (push_state GAMEPLAY None true sm) in
  fst (push_state DIALOGUE None true sm).

(** *** Input routing *)

Lemma add_calls_nil sm : add_calls [] sm = sm.
Proof. destruct sm. unfold add_calls. simpl. rewrite app_nil_r. reflexivity. Qed.

(** The routing loop, against the specification's terms: recording a
    call changes no state, so every test of the loop reads the manager
    the call started with. *)
Lemma offer_spec event l sm0 cs :
  offer l event (add_calls cs sm0) =
    (add_calls (cs ++ map (fun r => HandleEvent r event)
                        (up_to_consumer event sm0 (List.filter (takes_input sm0) l)))
       sm0,
     existsb (consumed_by event sm0) (List.filter (takes_input sm0) l)).
Proof.
  revert cs. induction l as [|r rest IH]; intros cs; simpl.
  - rewrite app_nil_r. reflexivity.
  - change (is_active r (add_calls cs sm0) && negb (is_blocking r (add_calls cs sm0)))
      with (takes_input sm0 r).
    destruct (takes_input sm0 r); simpl; [|apply IH].
    change (field (fun s => consumes s event) false r
              (record_call (HandleEvent r event) (add_calls cs sm0)))
      with (consumed_by event sm0 r).
    destruct (consumed_by event sm0 r); simpl.
    + unfold add_calls, record_call. simpl. rewrite <- app_assoc. reflexivity.
    + replace (record_call (HandleEvent r event) (add_calls cs sm0))
        with (add_calls (cs ++ [HandleEvent r event]) sm0).
      * rewrite IH, <- app_assoc. reflexivity.
      * unfold add_calls, record_call. simpl. rewrite <- app_assoc. reflexivity.
Qed.

Lemma up_to_consumer_incl event sm l r :
  In r (up_to_consumer event sm l) -> In r l.
Proof.
  induction l as [|x rest IH]; simpl; [tauto|].
  destruct (consumed_by event sm x); simpl; tauto.
Qed.

Lemma up_to_consumer_all event sm l :
  existsb (consumed_by event sm) l = false -> up_to_consumer event sm l = l.
Proof.
  induction l as [|x rest IH]; simpl; [reflexivity|].
  destruct (consumed_by event sm x); simpl; [discriminate|].
  intros H. rewrite IH by exact H. reflexivity.
Qed.

(** On [paused_game] the pause menu on top is marked [blocks_input],
    and [handle_event] calls the handler of the gameplay state beneath
    it (and of no other state): a state beneath a blocking state does
    see the event. *)
Lemma state_below_blocking_state_sees_event :
  state_stack paused_game = [0; 1]%nat /\
  is_blocking 1 paused_game = true /\
  calls (fst (handle_event a_key paused_game))
  = calls paused_game ++ [HandleEvent 0 a_key].
Proof. split; [|split]; vm_compute; reflexivity. Qed.

(** C1, as the code has it.  [handle_event] offers the event from the
    top of the stack down to the states that are active and not marked
    [blocks_input], and stops at the first of them that consumes it.  A
    state marked [blocks_input] is passed over: it is never offered the
    event itself, and it hides no state beneath it, so that when no
    state consumes the event every active state not marked
    [blocks_input] is offered it, wherever it is in the stack. *)
Theorem handle_event_passes_over_blocking_states
    (event : PygameEvent) (sm : StateManager) :
  handle_event event sm =
    (add_calls (map (fun r => HandleEvent r event) (offered event sm)) sm,
     existsb (consumed_by event sm) (List.filter (takes_input sm) (rev (state_stack sm))))
  /\ (forall r, In r (offered event sm) ->
        In r (state_stack sm) /\ is_active r sm = true /\ is_blocking r sm = false)
  /\ (snd (handle_event event sm) = false ->
      forall r, In r (state_stack sm) -> is_active r sm = true ->
                is_blocking r sm = false -> In r (offered event sm)).
Proof.
  assert (handle_event event sm =
    (add_calls (map (fun r => HandleEvent r event) (offered event sm)) sm,
     existsb (consumed_by event sm)
       (List.filter (takes_input sm) (rev (state_stack sm))))) as Hspec.
  { unfold handle_event, offered.
    pose proof (offer_spec event (rev (state_stack sm)) sm []) as H.
    rewrite add_calls_nil in H. exact H. }
  split; [exact Hspec|]. split.
  - intros r Hin. unfold offered in Hin.
    apply up_to_consumer_incl, filter_In in Hin. destruct Hin as [Hin Htakes].
    apply in_rev in Hin. unfold takes_input in Htakes.
    apply andb_true_iff in Htakes. destruct Htakes as [Ha Hb].
    apply negb_true_iff in Hb. tauto.
  - rewrite Hspec. simpl. intros Hnone r Hin Ha Hb.
    unfold offered. rewrite up_to_consumer_all by exact Hnone.
    apply filter_In. split; [apply in_rev; rewrite rev_involutive; exact Hin|].
    unfold takes_input. rewrite Ha, Hb. reflexivity.
Qed.

(** *** Transitions *)

(** C7.  With one state or none on the stack, [pop_state] returns
    false, immediate or not, and [_perform_state_pop] returns at once:
    the manager is as it was, stack, current state, every state object
    and the record of calls included, so that no [exit], [pause] or
    [resume] was made. *)
Theorem pop_refused_on_short_stack (immediate : bool) (sm : StateManager) :
  (length (state_stack sm) <= 1)%nat ->
  pop_state immediate sm = (sm, false) /\ _perform_state_pop sm = sm.
Proof.
  intros Hshort. unfold pop_state, _perform_state_pop.
  destruct (Nat.leb_spec (length (state_stack sm)) 1); [|lia].
  split; reflexivity.
Qed.

Lemma pop_refused_on_short_stack_witness :
  pop_state true (fst (change_state GAMEPLAY None true
                         (register_state 0 (snd (new_state
                            (GameState_init GAMEPLAY quiet) StateManager_init)))))
  = (fst (change_state GAMEPLAY None true
            (register_state 0 (snd (new_state
               (GameState_init GAMEPLAY quiet) StateManager_init)))), false).
Proof.
  refine (proj1 (pop_refused_on_short_stack true _ _)).
  vm_compute. lia.
Defined.

(** On [paused_game], whose stack holds gameplay under the pause menu,
    the change to the main menu exits the pause menu, which is the
    current state, and enters the main menu; gameplay is taken off the
    stack without a call of [exit], and stays active: [exit] is not
    called on every state of the stack. *)
Lemma change_leaves_lower_state_unexited :
  option_map (fun sm => (state_stack sm, drop (length (calls paused_game)) (calls sm),
                         is_active 0 sm))
    (_perform_state_change MAIN_MENU None paused_game)
  = Some ([2%nat], [Exit 1 (Some 2%nat); Enter 2 None None], true).
Proof. vm_compute. reflexivity. Qed.

(** C3, as the code has it.  A change to a registered target, applied
    while the stack holds states, calls [exit] on the current state,
    the top of the stack, and on no other state, and calls [pause] on
    none; afterwards the stack holds the target alone, the target is
    current, and its [enter] was called with the data supplied.  The
    states that were beneath the top are dropped from the stack as they
    are. *)
Theorem change_exits_current_state_only
    (state_type : StateType) (d : option Data) (sm : StateManager) (target top : nat) :
  states sm !! state_type = Some target ->
  last (state_stack sm) = Some top ->
  current_state sm = last (state_stack sm) ->
  exists sm',
    _perform_state_change state_type d sm = Some sm' /\
    state_stack sm' = [target] /\
    current_state sm' = Some target /\
    calls sm' = calls sm ++ [Exit top (Some target); Enter target None d] /\
    forall r, r <> top -> r <> target -> objects sm' !! r = objects sm !! r.
Proof.
  intros Hreg Htop Hcur. unfold _perform_state_change.
  rewrite Hreg, Hcur, Htop. eexists. split; [reflexivity|]. simpl.
  split; [reflexivity|]. split; [reflexivity|]. split.
  - rewrite <- app_assoc. reflexivity.
  - intros r Hr1 Hr2. rewrite !lookup_alter_ne by congruence. reflexivity.
Qed.

Lemma change_exits_current_state_only_witness :
  exists sm',
    _perform_state_change MAIN_MENU None paused_game = Some sm' /\
    state_stack sm' = [2%nat] /\
    current_state sm' = Some 2%nat /\
    calls sm' = calls paused_game ++ [Exit 1 (Some 2%nat); Enter 2 None None] /\
    forall r, r <> 1%nat -> r <> 2%nat -> objects sm' !! r = objects paused_game !! r.
Proof.
  apply (change_exits_current_state_only MAIN_MENU None paused_game 2 1);
    reflexivity.
Defined.

(** *** The registry, the stack and the current state *)

Lemma In_removelast (l : list nat) r : In r (removelast l) -> In r l.
Proof.
  induction l as [|x rest IH]; simpl; [tauto|].
  destruct rest; simpl in *; tauto.
Qed.

Lemma reshaped_current sm sm' :
  reshaped sm sm' -> current_is_top sm -> current_is_top sm'.
Proof.
  unfold current_is_top.
  induction 1 as [sm sm' _ Hst Hc|sm sm' t new _ _ Hst Hc|sm sm' t new _ _ Hst Hc
                 |sm sm' _ Hst Hc|sm sm1 sm2 _ IH1 _ IH2]; intros Htop.
  - rewrite Hc, Hst. exact Htop.
  - rewrite Hc, Hst. reflexivity.
  - rewrite Hc, Hst, last_snoc. reflexivity.
  - rewrite Hc, Hst. reflexivity.
  - apply IH2, IH1, Htop.
Qed.

Lemma reshaped_registered sm sm' :
  reshaped sm sm' -> stack_registered sm -> stack_registered sm'.
Proof.
  unfold stack_registered.
  induction 1 as [sm sm' Hreg Hst _|sm sm' t new Hreg Hnew Hst _
                 |sm sm' t new Hreg Hnew Hst _|sm sm' Hreg Hst _
                 |sm sm1 sm2 _ IH1 _ IH2]; intros Hall r Hin.
  - rewrite Hreg. apply Hall. rewrite <- Hst. exact Hin.
  - rewrite Hreg. rewrite Hst in Hin. destruct Hin as [<-|[]]. exists t. exact Hnew.
  - rewrite Hreg. rewrite Hst in Hin. apply in_app_iff in Hin.
    destruct Hin as [Hin|[<-|[]]]; [apply Hall; exact Hin|exists t; exact Hnew].
  - rewrite Hreg. apply Hall, In_removelast. rewrite <- Hst. exact Hin.
  - apply IH2; [|exact Hin]. apply IH1. exact Hall.
Qed.

Lemma change_reshaped t d sm new :
  states sm !! t = Some new ->
  exists sm', _perform_state_change t d sm = Some sm' /\
    states sm' = states sm /\ state_stack sm' = [new] /\ current_state sm' = Some new.
Proof.
  intros Hreg. unfold _perform_state_change. rewrite Hreg.
  eexists. split; [reflexivity|]. destruct (current_state sm); repeat split.
Qed.

Lemma push_reshaped t d sm new :
  states sm !! t = Some new ->
  exists sm', _perform_state_push t d sm = Some sm' /\
    states sm' = states sm /\ state_stack sm' = state_stack sm ++ [new] /\
    current_state sm' = Some new.
Proof.
  intros Hreg. unfold _perform_state_push. rewrite Hreg.
  eexists. split; [reflexivity|].
  destruct (current_state sm) as [c|]; [destruct (may_pause c sm)|]; repeat split.
Qed.

Lemma pop_reshaped sm : reshaped sm (_perform_state_pop sm).
Proof.
  unfold _perform_state_pop.
  destruct (length (state_stack sm) <=? 1)%nat; [apply reshaped_same; reflexivity|].
  destruct (last (state_stack sm)) as [c|]; [|apply reshaped_same; reflexivity].
  cbn [current_state set_stack].
  destruct (last (removelast (state_stack sm))) as [c'|] eqn:Hlast;
    apply reshaped_pop; try reflexivity; simpl; rewrite Hlast; reflexivity.
Qed.

Lemma pop_state_reshaped immediate sm : reshaped sm (fst (pop_state immediate sm)).
Proof.
  unfold pop_state.
  destruct (length (state_stack sm) <=? 1)%nat; [apply reshaped_same; reflexivity|].
  destruct immediate; [apply pop_reshaped|apply reshaped_same; reflexivity].
Qed.

Lemma pop_down_to_reshaped n i sm : reshaped sm (pop_down_to n i sm).
Proof.
  revert sm. induction n as [|n IH]; intros sm; simpl.
  - apply reshaped_same; reflexivity.
  - destruct (i + 1 <? length (state_stack sm))%nat;
      [|apply reshaped_same; reflexivity].
    eapply reshaped_trans; [apply (pop_state_reshaped true)|apply IH].
Qed.

Lemma exit_all_states n sm : states (exit_all n sm) = states sm.
Proof.
  revert sm. induction n as [|n IH]; intros sm; simpl; [reflexivity|].
  destruct (last (state_stack sm)); [|reflexivity]. rewrite IH. reflexivity.
Qed.

(** Every operation but the two on the registry. *)
Lemma step_reshaped op sm :
  match op with
  | op_register_state _ | op_unregister_state _ => True
  | _ => reshaped sm (step op sm)
  end.
Proof.
  destruct op as [s|r|t|t d imm|t d imm|imm|t d|t d|dt|event]; simpl; try exact I.
  - apply reshaped_same; reflexivity.
  - unfold change_state. destruct (states sm !! t) as [new|] eqn:Hreg;
      [|apply reshaped_same; reflexivity].
    destruct imm; [|apply reshaped_same; reflexivity].
    destruct (change_reshaped t d sm new Hreg) as (sm' & -> & H1 & H2 & H3).
    simpl. eapply reshaped_reset; eassumption.
  - unfold push_state. destruct (states sm !! t) as [new|] eqn:Hreg;
      [|apply reshaped_same; reflexivity].
    destruct imm; [|apply reshaped_same; reflexivity].
    destruct (push_reshaped t d sm new Hreg) as (sm' & -> & H1 & H2 & H3).
    simpl. eapply reshaped_push; eassumption.
  - apply pop_state_reshaped.
  - unfold back_to_state.
    destruct (find_index t (state_stack sm) 0 sm) as [i|];
      [|apply reshaped_same; reflexivity].
    simpl. eapply reshaped_trans; [apply pop_down_to_reshaped|].
    destruct (current_state _); [destruct (truthy d)|];
      apply reshaped_same; reflexivity.
  - unfold clear_stack. destruct (states sm !! t) as [new|] eqn:Hreg;
      [|apply reshaped_same; reflexivity].
    unfold change_state. rewrite exit_all_states, Hreg.
    destruct (change_reshaped t d (exit_all (length (state_stack sm)) sm) new)
      as (sm' & -> & H1 & H2 & H3); [rewrite exit_all_states; exact Hreg|].
    simpl. rewrite exit_all_states in H1. eapply reshaped_reset; eassumption.
  - assert (forall sm1, reshaped sm sm1 ->
      reshaped sm (fst (match current_state sm1 with
                        | Some c => if is_active c sm1
                                    then (record_call (Update c dt) sm1, false)
                                    else (sm1, false)
                        | None => (sm1, false)
                        end))) as Htail.
    { intros sm1 H. eapply reshaped_trans; [exact H|].
      destruct (current_state sm1) as [c|]; [destruct (is_active c sm1)|];
        apply reshaped_same; reflexivity. }
    unfold update. destruct (_pending_transition sm) as [[t d|t d|]|].
    + destruct (states sm !! t) as [new|] eqn:Hreg.
      * destruct (change_reshaped t (Some d) (set_pending None sm) new Hreg)
          as (sm' & -> & H1 & H2 & H3).
        apply Htail. eapply reshaped_reset; eassumption.
      * unfold _perform_state_change. simpl. rewrite Hreg.
        apply reshaped_same; reflexivity.
    + destruct (states sm !! t) as [new|] eqn:Hreg.
      * destruct (push_reshaped t (Some d) (set_pending None sm) new Hreg)
          as (sm' & -> & H1 & H2 & H3).
        apply Htail. eapply reshaped_push; eassumption.
      * unfold _perform_state_push. simpl. rewrite Hreg.
        apply reshaped_same; reflexivity.
    + apply Htail. eapply reshaped_trans; [|apply pop_reshaped].
      apply reshaped_same; reflexivity.
    + apply Htail. apply reshaped_same; reflexivity.
  - unfold handle_event.
    pose proof (offer_spec event (rev (state_stack sm)) sm []) as H.
    rewrite add_calls_nil in H. rewrite H. apply reshaped_same; reflexivity.
Qed.

Lemma register_state_shape r sm :
  state_stack (register_state r sm) = state_stack sm /\
  current_state (register_state r sm) = current_state sm /\
  states (register_state r sm) =
    match objects sm !! r with
    | Some s => <[state_type s := r]> (states sm)
    | None => states sm
    end.
Proof.
  unfold register_state. destruct (objects sm !! r) as [s|]; [|repeat split].
  unfold initialize. destruct (field initialized true r _); repeat split.
Qed.

Lemma step_current op sm : current_is_top sm -> current_is_top (step op sm).
Proof.
  pose proof (step_reshaped op sm) as H.
  destruct op; try (apply reshaped_current; exact H); unfold current_is_top; simpl.
  - destruct (register_state_shape r sm) as (-> & -> & _). tauto.
  - unfold unregister_state. destruct (states sm !! state_type0); simpl; tauto.
Qed.

Lemma step_registered op sm :
  spares_stack op sm -> stack_registered sm -> stack_registered (step op sm).
Proof.
  pose proof (step_reshaped op sm) as H.
  destruct op; try (intros _; apply reshaped_registered; exact H);
    unfold stack_registered; simpl; intros Hspare Hall r0 Hin.
  - destruct (register_state_shape r sm) as (Hst & _ & Hreg).
    rewrite Hst in Hin. rewrite Hreg. destruct (Hall r0 Hin) as [t0 Ht0].
    destruct (objects sm !! r) as [s|] eqn:Hobj; [|exists t0; exact Ht0].
    destruct (decide (state_type s = t0)) as [<-|Hne].
    + exists (state_type s). rewrite lookup_insert_eq.
      destruct (Hspare s r0 eq_refl Ht0) as [->|Hout]; [reflexivity|tauto].
    + exists t0. rewrite lookup_insert_ne by exact Hne. exact Ht0.
  - unfold unregister_state in *.
    destruct (states sm !! state_type0) as [r|] eqn:Hreg; simpl in *;
      [|apply Hall; exact Hin].
    destruct (Hall r0 Hin) as [t0 Ht0]. exists t0.
    destruct (decide (state_type0 = t0)) as [<-|Hne].
    + exfalso. apply (Hspare r0); [congruence|exact Hin].
    + rewrite lookup_delete_ne by exact Hne. exact Ht0.
Qed.

Lemma run_current ops sm : current_is_top sm -> current_is_top (run ops sm).
Proof.
  revert sm. induction ops as [|op rest IH]; intros sm H; simpl; [exact H|].
  apply IH, step_current, H.
Qed.

Lemma run_registered ops sm :
  run_spares_stack ops sm -> stack_registered sm -> stack_registered (run ops sm).
Proof.
  revert sm. induction ops as [|op rest IH]; intros sm Hs H; simpl; [exact H|].
  destruct Hs as [Hop Hrest]. apply IH; [exact Hrest|].
  apply step_registered; assumption.
Qed.

(** Four operations break the containment of the stack in the
    registry: a gameplay state is made, registered, made current and
    unregistered.  It is still on the stack, and current, and the
    registry is empty. *)
Lemma unregistered_state_stays_on_stack :
  let sm := run [op_new_state (GameState_init GAMEPLAY quiet);
                 op_register_state 0;
                 op_change_state GAMEPLAY None true;
                 op_unregister_state GAMEPLAY] StateManager_init in
  state_stack sm = [0%nat] /\ current_state sm = Some 0%nat /\ states sm = ∅.
Proof. cbv zeta. split; [|split]; vm_compute; reflexivity. Qed.

(** C5, as the code has it.  After every sequence of operations of the
    manager, [current_state] is the top of the stack when the stack
    holds a state and [None] when it is empty.  Every state on the
    stack is in the registry after every sequence in which no operation
    unregisters the kind of a state that is on the stack or registers
    another object under such a kind: these two operations change the
    registry and leave the stack as it is. *)
Theorem current_is_top_and_stack_registered (ops : list Op) :
  current_is_top (run ops StateManager_init) /\
  (run_spares_stack ops StateManager_init ->
   stack_registered (run ops StateManager_init)).
Proof.
  split.
  - apply run_current. reflexivity.
  - intros Hs. apply run_registered; [exact Hs|]. intros r [].
Qed.

Lemma current_is_top_and_stack_registered_witness :
  stack_registered
    (run [op_new_state (GameState_init GAMEPLAY quiet);
          op_new_state (GameState_init PAUSE_MENU quiet);
          op_register_state 0; op_register_state 1;
          op_change_state GAMEPLAY None false; op_update 1;
          op_push_state PAUSE_MENU None true;
          op_unregister_state MAIN_MENU;
          op_pop_state true] StateManager_init).
Proof.
  refine (proj2 (current_is_top_and_stack_registered _) _).
  cbn [run_spares_stack spares_stack]. repeat split.
  - intros s old _ _. right. vm_compute. tauto.
  - intros s old _ _. right. vm_compute. tauto.
  - intros r. vm_compute. intros Hr. inversion Hr.
Defined.

(** *** Pushing, popping and going back *)

(** The pop of a stack that holds more than one state. *)
Lemma pop_longer_stack sm l r :
  state_stack sm = l ++ [r] -> l <> [] ->
  _perform_state_pop sm =
    let sm1 := exit r None (set_stack l (current_state sm) sm) in
    let sm2 := set_stack l (last l) sm1 in
    match last l with
    | Some c => resume c sm2
    | None => sm2
    end.
Proof.
  intros Hst Hl. unfold _perform_state_pop. rewrite Hst.
  rewrite last_snoc, removelast_last, length_app.
  destruct (Nat.leb_spec (length l + length [r]) 1) as [Hle|_].
  - destruct l; [congruence|]. simpl in Hle. lia.
  - reflexivity.
Qed.

Lemma pop_state_longer_stack sm l r :
  state_stack sm = l ++ [r] -> l <> [] ->
  pop_state true sm = (_perform_state_pop sm, true).
Proof.
  intros Hst Hl. unfold pop_state. rewrite Hst, length_app.
  destruct (Nat.leb_spec (length l + length [r]) 1) as [Hle|_]; [|reflexivity].
  destruct l; [congruence|]. simpl in Hle. lia.
Qed.



Lemma find_index_none t sm l i :
  Forall (fun r => has_kind t sm r = false) l -> find_index t l i sm = None.
Proof.
  intros Hall. revert i. induction Hall as [|r rest Hr _ IH]; intros i; simpl.
  - reflexivity.
  - unfold has_kind in Hr. rewrite Hr. apply IH.
Qed.

Lemma find_index_first t sm below r above i :
  Forall (fun x => has_kind t sm x = false) below ->
  has_kind t sm r = true ->
  find_index t (below ++ r :: above) i sm = Some (i + length below)%nat.
Proof.
  intros Hall Hr. revert i. induction Hall as [|x rest Hx _ IH]; intros i; simpl.
  - unfold has_kind in Hr. rewrite Hr. f_equal. lia.
  - unfold has_kind in Hx. rewrite Hx, IH. f_equal. lia.
Qed.

(** The loop of [back_to_state] takes off what is above the target. *)
Lemma pop_down_to_cut below r above :
  forall n sm,
    state_stack sm = below ++ r :: above -> (length above <= n)%nat ->
    state_stack (pop_down_to n (length below) sm) = below ++ [r].
Proof.
  induction above as [|a above IH] using rev_ind; intros n sm Hst Hn.
  - destruct n as [|n]; simpl; [exact Hst|].
    rewrite Hst, length_app. simpl.
    destruct (Nat.ltb_spec (length below + 1) (length below + 1)); [lia|exact Hst].
  - rewrite length_app in Hn. simpl in Hn. destruct n as [|n]; [lia|].
    simpl. rewrite Hst at 1. rewrite !length_app. simpl. rewrite length_app. simpl.
    destruct (Nat.ltb_spec (length below + 1)
                (length below + S (length above + 1))) as [_|Hge]; [|lia].
    assert (Hst' : state_stack sm = (below ++ r :: above) ++ [a])
      by (rewrite Hst, <- app_assoc; reflexivity).
    assert (Hne : below ++ r :: above <> []) by (destruct below; discriminate).
    rewrite (pop_state_longer_stack sm _ _ Hst' Hne). cbn [fst].
    apply IH; [|lia].
    rewrite (pop_longer_stack sm _ _ Hst' Hne). cbv zeta.
    destruct (last (below ++ r :: above)); reflexivity.
Qed.

(** X24.  [back_to_state] looks for the lowest state of the kind on
    the stack.  When no state of the stack is of the kind it answers
    [False] and changes nothing.  Otherwise everything above that state
    is popped: the stack is cut just above it and it is the current
    state. *)
Theorem back_to_state_cuts_above_lowest
    (t : StateType) (d : option Data) (sm : StateManager) :
  current_is_top sm ->
  (Forall (fun r => has_kind t sm r = false) (state_stack sm) ->
   back_to_state t d sm = (sm, false)) /\
  (forall below r above,
     state_stack sm = below ++ r :: above ->
     Forall (fun x => has_kind t sm x = false) below ->
     has_kind t sm r = true ->
     snd (back_to_state t d sm) = true /\
     state_stack (fst (back_to_state t d sm)) = below ++ [r] /\
     current_state (fst (back_to_state t d sm)) = Some r).
Proof.
  intros Htop. split.
  - intros Hall. unfold back_to_state. rewrite (find_index_none _ _ _ _ Hall).
    reflexivity.
  - intros below r above Hst Hall Hr.
    pose proof (find_index_first t sm below r above 0 Hall Hr) as Hfound.
    rewrite <- Hst in Hfound. unfold back_to_state. rewrite Hfound.
    cbn [fst snd Nat.add].
    set (cut := pop_down_to _ _ sm).
    assert (Hcut : state_stack cut = below ++ [r]).
    { subst cut. apply (pop_down_to_cut below r above); [exact Hst|].
      rewrite Hst, length_app. simpl. lia. }
    assert (Hcur : current_state cut = Some r).
    { pose proof (reshaped_current _ _ (pop_down_to_reshaped
        (length (state_stack sm)) (length below) sm) Htop) as Hc.
      fold cut in Hc. unfold current_is_top in Hc.
      rewrite Hc, Hcut, last_snoc. reflexivity. }
    split; [reflexivity|]. rewrite Hcur.
    destruct (truthy d); simpl; auto.
Qed.

Lemma back_to_state_cuts_above_lowest_witness :
  back_to_state MAIN_MENU None paused_game = (paused_game, false) /\
  snd (back_to_state GAMEPLAY None paused_game) = true /\
  state_stack (fst (back_to_state GAMEPLAY None paused_game)) = [0%nat] /\
  current_state (fst (back_to_state GAMEPLAY None paused_game)) = Some 0%nat.
Proof.
  split.
  - apply (back_to_state_cuts_above_lowest MAIN_MENU None paused_game eq_refl).
    repeat constructor.
  - apply (proj2 (back_to_state_cuts_above_lowest GAMEPLAY None paused_game eq_refl)
             [] 0%nat [1%nat]); [reflexivity|constructor|reflexivity].
Defined.

(** *** Clearing the stack *)

(** The loop of [clear_stack] exits the states from the top down and
    leaves [current_state] as it was. *)
Lemma exit_all_calls l :
  forall sm,
    state_stack sm = l ->
    state_stack (exit_all (length l) sm) = [] /\
    current_state (exit_all (length l) sm) = current_state sm /\
    calls (exit_all (length l) sm) =
      calls sm ++ map (fun r => Exit r None) (rev l).
Proof.
  induction l as [|r l IH] using rev_ind; intros sm Hst.
  - simpl. rewrite app_nil_r. auto.
  - rewrite length_app, Nat.add_comm. simpl.
    rewrite Hst, last_snoc, removelast_last.
    destruct (IH (exit r None (set_stack l (current_state sm) sm)) eq_refl)
      as (H1 & H2 & H3).
    rewrite H1, H2, H3. rewrite rev_unit. simpl. rewrite <- app_assoc.
    auto.
Qed.

(** X25.  [clear_stack] with a registered target exits every state of
    the stack from the top down, and then, [current_state] still being
    the former top, exits that state a second time before the target is
    entered: the former top gets two calls of [exit], the states beneath
    it one each.  Afterwards the stack holds the target alone. *)
Theorem clear_stack_exits_top_twice
    (t : StateType) (d : option Data) (sm : StateManager)
    (new top : nat) (below : list nat) :
  states sm !! t = Some new ->
  state_stack sm = below ++ [top] ->
  current_state sm = Some top ->
  snd (clear_stack t d sm) = true /\
  state_stack (fst (clear_stack t d sm)) = [new] /\
  current_state (fst (clear_stack t d sm)) = Some new /\
  calls (fst (clear_stack t d sm)) =
    calls sm ++ Exit top None :: map (fun r => Exit r None) (rev below) ++
    [Exit top (Some new); Enter new None d].
Proof.
  intros Hreg Hst Hcur. unfold clear_stack. rewrite Hreg.
  destruct (exit_all_calls (state_stack sm) sm eq_refl) as (H1 & H2 & H3).
  set (cleared := exit_all _ sm) in *.
  unfold change_state. rewrite (exit_all_states _ sm : states cleared = _), Hreg.
  unfold _perform_state_change.
  rewrite (exit_all_states _ sm : states cleared = _), Hreg, H2, Hcur.
  cbn [default fst snd].
  split; [reflexivity|]. split; [reflexivity|]. split; [reflexivity|].
  simpl. rewrite H3, Hst, rev_unit. simpl.
  rewrite <- !app_assoc. reflexivity.
Qed.

Lemma clear_stack_exits_top_twice_witness :
  snd (clear_stack MAIN_MENU None paused_game) = true /\
  state_stack (fst (clear_stack MAIN_MENU None paused_game)) = [2%nat] /\
  current_state (fst (clear_stack MAIN_MENU None paused_game)) = Some 2%nat /\
  calls (fst (clear_stack MAIN_MENU None paused_game)) =
    calls paused_game ++ Exit 1 None :: map (fun r => Exit r None) (rev [0%nat]) ++
    [Exit 1 (Some 2%nat); Enter 2 None None].
Proof.
  apply (clear_stack_exits_top_twice MAIN_MENU None paused_game 2 1 [0%nat]);
    reflexivity.
Defined.

(** *** The history of transitions *)

Lemma add_to_history_bound t sm :
  (length (state_history sm) <= max_history)%nat ->
  (length (state_history (_add_to_history t sm)) <= max_history)%nat.
Proof.
  intros Hle. unfold _add_to_history. cbn [state_history set_state_history].
  assert (Hlen : length (state_history sm ++ [t]) = S (length (state_history sm)))
    by (rewrite length_app; simpl; lia).
  destruct (Nat.ltb_spec max_history (length (state_history sm ++ [t]))) as [_|Hok];
    [|exact Hok].
  destruct (state_history sm ++ [t]); simpl in *; lia.
Qed.

Lemma change_history_bound t d sm sm' :
  _perform_state_change t d sm = Some sm' ->
  (length (state_history sm) <= max_history)%nat ->
  (length (state_history sm') <= max_history)%nat.
Proof.
  unfold _perform_state_change. destruct (states sm !! t); [|discriminate].
  intros [= <-] Hle. apply add_to_history_bound.
  destruct (current_state sm); exact Hle.
Qed.

Lemma push_history_bound t d sm sm' :
  _perform_state_push t d sm = Some sm' ->
  (length (state_history sm) <= max_history)%nat ->
  (length (state_history sm') <= max_history)%nat.
Proof.
  unfold _perform_state_push. destruct (states sm !! t); [|discriminate].
  intros [= <-] Hle. apply add_to_history_bound.
  destruct (current_state sm) as [c|]; [destruct (may_pause c sm)|]; exact Hle.
Qed.

Lemma pop_history sm : state_history (_perform_state_pop sm) = state_history sm.
Proof.
  unfold _perform_state_pop.
  destruct (length (state_stack sm) <=? 1)%nat; [reflexivity|].
  destruct (last (state_stack sm)); [|reflexivity].
  cbn [current_state set_stack].
  destruct (last (removelast (state_stack sm))); reflexivity.
Qed.

Lemma pop_down_to_history n i sm :
  state_history (pop_down_to n i sm) = state_history sm.
Proof.
  revert sm. induction n as [|n IH]; intros sm; simpl; [reflexivity|].
  destruct (i + 1 <? length (state_stack sm))%nat; [|reflexivity].
  rewrite IH. unfold pop_state.
  destruct (length (state_stack sm) <=? 1)%nat; [reflexivity|apply pop_history].
Qed.

Lemma exit_all_history n sm : state_history (exit_all n sm) = state_history sm.
Proof.
  revert sm. induction n as [|n IH]; intros sm; simpl; [reflexivity|].
  destruct (last (state_stack sm)); [|reflexivity]. rewrite IH. reflexivity.
Qed.

Lemma offer_history l event sm :
  state_history (fst (offer l event sm)) = state_history sm.
Proof.
  revert sm. induction l as [|r rest IH]; intros sm; simpl; [reflexivity|].
  destruct (is_active r sm && negb (is_blocking r sm)); [|apply IH].
  destruct (field _ false r _); [reflexivity|]. rewrite IH. reflexivity.
Qed.

Lemma change_state_history_bound t d immediate sm :
  (length (state_history sm) <= max_history)%nat ->
  (length (state_history (fst (change_state t d immediate sm))) <= max_history)%nat.
Proof.
  intros Hle. unfold change_state.
  destruct (states sm !! t); [|exact Hle]. destruct immediate; [|exact Hle].
  destruct (_perform_state_change t d sm) as [sm'|] eqn:Hdone; [|exact Hle].
  exact (change_history_bound _ _ _ _ Hdone Hle).
Qed.

Lemma step_history_bound op sm :
  (length (state_history sm) <= max_history)%nat ->
  (length (state_history (step op sm)) <= max_history)%nat.
Proof.
  intros Hle.
  destruct op as [s|r|t|t d imm|t d imm|imm|t d|t d|dt|event]; simpl.
  - exact Hle.
  - unfold register_state. destruct (objects sm !! r); [|exact Hle].
    unfold initialize. destruct (field initialized true r _); exact Hle.
  - unfold unregister_state. destruct (states sm !! t); exact Hle.
  - apply change_state_history_bound, Hle.
  - unfold push_state. destruct (states sm !! t); [|exact Hle].
    destruct imm; [|exact Hle].
    destruct (_perform_state_push t d sm) as [sm'|] eqn:Hdone; [|exact Hle].
    exact (push_history_bound _ _ _ _ Hdone Hle).
  - unfold pop_state. destruct (length (state_stack sm) <=? 1)%nat; [exact Hle|].
    destruct imm; [|exact Hle]. cbn [fst]. rewrite pop_history. exact Hle.
  - unfold back_to_state.
    destruct (find_index t (state_stack sm) 0 sm) as [i|]; [|exact Hle].
    cbn [fst].
    destruct (current_state (pop_down_to _ i sm));
      [destruct (truthy d)|]; cbn [state_history set_objects];
      rewrite pop_down_to_history; exact Hle.
  - unfold clear_stack. destruct (states sm !! t); [|exact Hle].
    apply change_state_history_bound. rewrite exit_all_history. exact Hle.
  - unfold update.
    assert (Hafter : forall sm1 : StateManager,
              (length (state_history sm1) <= max_history)%nat ->
              (length (state_history
                 (fst match current_state sm1 with
                      | Some c =>
                          if is_active c sm1
                          then (record_call (Update c dt) sm1, false)
                          else (sm1, false)
                      | None => (sm1, false)
                      end)) <= max_history)%nat).
    { intros sm1 H1. destruct (current_state sm1) as [c|];
        [destruct (is_active c sm1)|]; exact H1. }
    destruct (_pending_transition sm) as [[t d|t d|]|].
    + destruct (_perform_state_change t (Some d) (set_pending None sm))
        as [sm'|] eqn:Hdone; [|exact Hle].
      apply Hafter. exact (change_history_bound _ _ _ _ Hdone Hle).
    + destruct (_perform_state_push t (Some d) (set_pending None sm))
        as [sm'|] eqn:Hdone; [|exact Hle].
      apply Hafter. exact (push_history_bound _ _ _ _ Hdone Hle).
    + apply Hafter. rewrite pop_history. exact Hle.
    + apply Hafter. exact Hle.
  - unfold handle_event. rewrite offer_history. exact Hle.
Qed.

Lemma run_history_bound ops :
  forall sm,
    (length (state_history sm) <= max_history)%nat ->
    (length (state_history (run ops sm)) <= max_history)%nat.
Proof.
  induction ops as [|op rest IH]; intros sm Hle; simpl; [exact Hle|].
  apply IH, step_history_bound, Hle.
Qed.

(** X26.  Whatever operations are applied to a new manager,
    [state_history] never holds more than [max_history], 50, entries:
    each applied change or push appends its kind and drops the oldest
    entry when there are more. *)
Theorem state_history_never_exceeds_max (ops : list Op) :
  (length (state_history (run ops StateManager_init)) <= max_history)%nat.
Proof. apply run_history_bound. simpl. unfold max_history. lia. Qed.

(** *** Rendering *)

Lemma render_start_base sm top tops :
  forall i base rest,
    Forall (fun r => is_overlay r sm = true) tops ->
    is_overlay base sm = false ->
    render_start (tops ++ base :: rest) i top sm = (i - length tops)%nat.
Proof.
  induction tops as [|r tops IH]; intros i base rest Hall Hbase; simpl.
  - rewrite Hbase. simpl. lia.
  - inversion Hall as [|? ? Hr Hrest]; subst. rewrite Hr. simpl.
    rewrite (IH _ _ _ Hrest Hbase). lia.
Qed.

Lemma render_start_overlays sm top tops :
  forall i,
    Forall (fun r => is_overlay r sm = true) tops ->
    render_start tops i top sm = top.
Proof.
  induction tops as [|r tops IH]; intros i Hall; simpl; [reflexivity|].
  inversion Hall as [|? ? Hr Hrest]; subst. rewrite Hr. simpl. apply IH, Hrest.
Qed.

(** X27.  [render] draws from the topmost state that is not an overlay
    upwards: that state and the overlays above it, those of them that
    are active, bottom first; nothing beneath it is drawn.  When every
    state of the stack is an overlay, the top state alone is drawn. *)
Theorem render_draws_from_topmost_opaque
    (sm : StateManager) (below above : list nat) (base : nat) :
  state_stack sm = below ++ base :: above ->
  Forall (fun r => is_overlay r sm = true) above ->
  (is_overlay base sm = false ->
   render sm = List.filter (fun r => is_active r sm) (base :: above)) /\
  (is_overlay base sm = true ->
   Forall (fun r => is_overlay r sm = true) below ->
   render sm =
     List.filter (fun r => is_active r sm) (option_list (last (base :: above)))).
Proof.
  intros Hst Hall.
  assert (Hrev : rev (state_stack sm) = rev above ++ base :: rev below).
  { rewrite Hst, rev_app_distr. simpl. rewrite <- app_assoc. reflexivity. }
  assert (Hlen : length (state_stack sm) = (length below + S (length above))%nat).
  { rewrite Hst, length_app. reflexivity. }
  split.
  - intros Hbase. unfold render. rewrite Hrev.
    rewrite render_start_base;
      [|apply List.Forall_rev; exact Hall|exact Hbase].
    rewrite length_rev, Hlen.
    replace (length below + S (length above) - 1 - length above)%nat
      with (length below) by lia.
    rewrite Hst, drop_app_length. reflexivity.
  - intros Hbase Hbelow. unfold render.
    rewrite render_start_overlays.
    + destruct (exists_last (l := base :: above)) as (l & top & Hl); [discriminate|].
      rewrite Hl, last_snoc. simpl option_list.
      assert (Hst' : state_stack sm = (below ++ l) ++ [top])
        by (rewrite Hst, Hl, app_assoc; reflexivity).
      rewrite Hst', length_app. simpl.
      replace (length (below ++ l) + 1 - 1)%nat with (length (below ++ l)) by lia.
      rewrite drop_app_length. reflexivity.
    + rewrite Hrev. apply Forall_app. split.
      * apply List.Forall_rev; exact Hall.
      * constructor; [exact Hbase|]. apply List.Forall_rev; exact Hbelow.
Qed.

Lemma render_draws_from_topmost_opaque_witness :
  render overlaid_game = [0%nat; 2%nat].
Proof.
  refine (proj1 (render_draws_from_topmost_opaque overlaid_game [1%nat] [2%nat] 0
                   eq_refl _) eq_refl).
  repeat constructor.
Defined.

(** *** Deferred transitions *)

(** X28.  A change requested without [immediate] leaves the stack as
    it is until the next [update], which applies it: the stack, the
    current state, the state objects and the history are then those an
    immediate change would have given, and no transition is pending.
    Whatever transition was pending before the request is dropped
    unapplied. *)
Theorem deferred_change_applied_by_update
    (t : StateType) (d : option Data) (dt : Q) (sm : StateManager) (new : nat) :
  states sm !! t = Some new ->
  let requested := fst (change_state t d false sm) in
  let deferred := fst (update dt requested) in
  let immediate := fst (change_state t d true sm) in
  state_stack requested = state_stack sm /\
  current_state requested = current_state sm /\
  calls requested = calls sm /\
  state_stack deferred = state_stack immediate /\
  current_state deferred = current_state immediate /\
  objects deferred = objects immediate /\
  state_history deferred = state_history immediate /\
  _pending_transition deferred = None.
Proof.
  intros Hreg requested deferred immediate.
  subst requested deferred immediate.
  unfold change_state. rewrite Hreg. cbn [fst].
  split; [reflexivity|]. split; [reflexivity|]. split; [reflexivity|].
  unfold update. cbn [_pending_transition set_pending].
  unfold _perform_state_change.
  cbn [states set_pending current_state]. rewrite Hreg.
  cbn [default from_option id].
  set (applied := _add_to_history t (enter new None (Some (or_empty d)) _)).
  assert (Hcur : current_state applied = Some new)
    by (subst applied; destruct (current_state sm); reflexivity).
  rewrite Hcur.
  assert (Hshape :
    state_stack applied = [new] /\
    objects applied =
      objects (_add_to_history t (enter new None d
        (set_stack [new] (Some new)
           match current_state sm with
           | Some c => exit c (Some new) sm
           | None => sm
           end))) /\
    _pending_transition applied = None).
  { subst applied. split; [destruct (current_state sm); reflexivity|]. split.
    - cbn [objects _add_to_history set_state_history enter record_call set_objects
           set_stack].
      assert (Hbody : forall objs : gmap nat GameState,
        alter (fun s => let s0 := set_active true s in
                        if truthy (Some (or_empty d))
                        then update_data (default ∅ (Some (or_empty d))) s0 else s0)
          new objs =
        alter (fun s => let s0 := set_active true s in
                        if truthy d then update_data (default ∅ d) s0 else s0)
          new objs).
      { intros objs. apply alter_ext. intros s _. cbv zeta.
        unfold or_empty. destruct d as [m|]; simpl.
        - destruct (bool_decide (m = ∅)) eqn:Hm; simpl.
          + rewrite bool_decide_eq_true_2 by reflexivity. reflexivity.
          + rewrite Hm. reflexivity.
        - rewrite bool_decide_eq_true_2 by reflexivity. reflexivity. }
      destruct (current_state sm); cbn [objects exit record_call set_objects
        set_pending]; apply Hbody.
    - destruct (current_state sm); reflexivity. }
  destruct Hshape as (Hst & Hobj & Hpend).
  assert (Hhist : state_history applied =
    state_history (_add_to_history t (enter new None d
        (set_stack [new] (Some new)
           match current_state sm with
           | Some c => exit c (Some new) sm
           | None => sm
           end))))
    by (subst applied; destruct (current_state sm); reflexivity).
  destruct (is_active new applied); cbn [fst state_stack current_state objects
    state_history _pending_transition record_call];
    rewrite ?Hst, ?Hcur, ?Hobj, ?Hhist, ?Hpend;
    (split; [destruct (current_state sm); reflexivity|]);
    (split; [destruct (current_state sm); reflexivity|]);
    repeat split.
Qed.

Lemma deferred_change_applied_by_update_witness :
  let requested := fst (change_state MAIN_MENU None false paused_game) in
  let deferred := fst (update 1 requested) in
  let immediate := fst (change_state MAIN_MENU None true paused_game) in
  state_stack requested = state_stack paused_game /\
  current_state requested = current_state paused_game /\
  calls requested = calls paused_game /\
  state_stack deferred = state_stack immediate /\
  current_state deferred = current_state immediate /\
  objects deferred = objects immediate /\
  state_history deferred = state_history immediate /\
  _pending_transition deferred = None.
Proof.
  apply (deferred_change_applied_by_update MAIN_MENU None 1 paused_game 2).
  reflexivity.
Defined.

(** X29.  When the kind a deferred change or push aims at is
    unregistered before the next [update], that [update] raises the
    [KeyError] of the registry lookup: the pending transition is
    dropped, the stack and the current state stay as they were, and the
    current state's [update] is not called. *)
Theorem update_raises_when_target_unregistered
    (t : StateType) (d : option Data) (dt : Q) (sm : StateManager) (r : nat)
    (as_push : bool) :
  states sm !! t = Some r ->
  let request := if as_push then push_state t d false else change_state t d false in
  let orphaned := unregister_state t (fst (request sm)) in
  update dt orphaned = (set_pending None orphaned, true) /\
  state_stack orphaned = state_stack sm /\
  current_state orphaned = current_state sm /\
  calls (fst (update dt orphaned)) = calls sm ++ [Cleanup r].
Proof.
  intros Hreg request orphaned. subst request orphaned.
  assert (Hgone : forall st : gmap StateType nat, delete t st !! t = None)
    by (intros st; apply lookup_delete_eq).
  destruct as_push.
  - unfold push_state. rewrite Hreg. cbn [fst].
    unfold unregister_state. cbn [states set_pending]. rewrite Hreg.
    unfold update. cbn [_pending_transition set_states cleanup record_call set_pending].
    unfold _perform_state_push. cbn [states set_pending set_states].
    rewrite Hgone. repeat split.
  - unfold change_state. rewrite Hreg. cbn [fst].
    unfold unregister_state. cbn [states set_pending]. rewrite Hreg.
    unfold update. cbn [_pending_transition set_states cleanup record_call set_pending].
    unfold _perform_state_change. cbn [states set_pending set_states].
    rewrite Hgone. repeat split.
Qed.

Lemma update_raises_when_target_unregistered_witness :
  let orphaned :=
    unregister_state MAIN_MENU (fst (change_state MAIN_MENU None false paused_game)) in
  update 1 orphaned = (set_pending None orphaned, true) /\
  state_stack orphaned = state_stack paused_game /\
  current_state orphaned = current_state paused_game /\
  calls (fst (update 1 orphaned)) = calls paused_game ++ [Cleanup 2].
Proof.
  apply (update_raises_when_target_unregistered MAIN_MENU None 1 paused_game 2 false).
  reflexivity.
Defined.

(** *** Registration *)

(** X30.  Registering the same state object a second time changes
    nothing: the registry entry is already there and [initialize],
    guarded by the [initialized] flag, does not run again. *)
Theorem register_state_twice (r : nat) (sm : StateManager) :
  register_state r (register_state r sm) = register_state r sm.
Proof.
  destruct (objects sm !! r) as [s|] eqn:Hobj.
  - destruct (initialized s) eqn:Hinit.
    + assert (Hfirst : register_state r sm =
                set_states (<[state_type s := r]> (states sm)) sm).
      { unfold register_state, initialize, field. cbn [objects set_states].
        rewrite Hobj, Hinit. reflexivity. }
      rewrite Hfirst. unfold register_state, initialize, field.
      cbn [objects set_states states]. rewrite Hobj, Hinit.
      unfold set_states. cbn. rewrite insert_insert_eq. reflexivity.
    + assert (Hfirst : register_state r sm =
                record_call (Initialize r)
                  (set_objects (alter set_initialized r (objects sm))
                     (set_states (<[state_type s := r]> (states sm)) sm))).
      { unfold register_state, initialize, field. cbn [objects set_states].
        rewrite Hobj, Hinit. reflexivity. }
      rewrite Hfirst. unfold register_state, initialize, field.
      cbn [objects set_states record_call set_objects states].
      rewrite lookup_alter_eq, Hobj. cbn.
      rewrite insert_insert_eq. reflexivity.
  - unfold register_state. repeat rewrite Hobj. reflexivity.
Qed.

End States.
